(** * gq: the key-filtering SAX handler of [gq.cc]

    A shallow embedding of [FilterKeyHandler] (gq.cc lines 31-120), of the
    way a SAX reader drives it, and of [main] (lines 153-224), followed by
    the properties of the handler that the specification states.

    Conventions of the embedding.
    - [unsigned] and rapidjson's [SizeType] are 32-bit unsigned integers.
      They are values of [N]; every increment and decrement is written with
      its wrap-around modulo 2^32.
    - A text span [(const Ch* str, SizeType len)] is the [list byte] of its
      [len] bytes.  The handler's pair [(keyString_, keyLength_)] is one such
      span, so [keyLength_] is the length of [keyString_].
    - A [double] is never inspected by the handler; it is carried as its
      64-bit pattern.
    - [std::stack<SizeType>] is a list whose head is [top()].  [top()] and
      [pop()] on an empty stack are undefined behaviour, which the embedding
      makes explicit. *)

From Stdlib Require Import String Strings.Byte.
From Stdlib Require Import List NArith ZArith Lia Bool.
Import ListNotations.

Local Open Scope N_scope.

(** ** Machine integers *)

Definition UINT_MODULUS : N := 2 ^ 32.

(** [x + 1] on a 32-bit unsigned. *)
Definition uint_succ (x : N) : N := (x + 1) mod UINT_MODULUS.

(** [x - 1] on a 32-bit unsigned. *)
Definition uint_pred (x : N) : N := (x + UINT_MODULUS - 1) mod UINT_MODULUS.

(** The value a [SizeType] counter holds after [n] increments from 0. *)
Definition SizeType_of_nat (n : nat) : N := N.of_nat n mod UINT_MODULUS.

(** ** Byte spans *)

(** [std::memcmp(s1, s2, n)]: the difference of the first pair of bytes that
    differ, compared as [unsigned char], and 0 when the first [n] bytes
    agree.  Reading past the end of a span is undefined: [None]. *)
Fixpoint memcmp (s1 s2 : list byte) (n : nat) : option Z :=
  match n with
  | O => Some 0%Z
  | S n' =>
      match s1, s2 with
      | a :: s1', b :: s2' =>
          if Byte.eqb a b then memcmp s1' s2' n'
          else Some (Z.of_N (Byte.to_N a) - Z.of_N (Byte.to_N b))%Z
      | _, _ => None
      end
  end.

Fixpoint bytes_eqb (s1 s2 : list byte) : bool :=
  match s1, s2 with
  | [], [] => true
  | a :: s1', b :: s2' => Byte.eqb a b && bytes_eqb s1' s2'
  | _, _ => false
  end.

(** ** SAX events

    One constructor per method of rapidjson's handler concept, with the
    method's arguments. *)

Module Event.

Inductive t : Type :=
| Null
| Bool (b : bool)
| Int (i : Z)
| Uint (u : N)
| Int64 (i : Z)
| Uint64 (u : N)
| Double (d : N)
| RawNumber (str : list byte) (copy : bool)
| String (str : list byte) (copy : bool)
| StartObject
| Key (str : list byte) (copy : bool)
| EndObject (memberCount : N)
| StartArray
| EndArray (elementCount : N).

(** The events that complete exactly one value. *)
Definition completes_value (e : t) : bool :=
  match e with
  | StartObject | Key _ _ | StartArray => false
  | _ => true
  end.

Definition is_scalar (e : t) : bool :=
  match e with
  | StartObject | Key _ _ | StartArray | EndObject _ | EndArray _ => false
  | _ => true
  end.

Definition is_Key_of (key : list byte) (e : t) : bool :=
  match e with
  | Key str _ => bytes_eqb str key
  | _ => false
  end.

Definition is_StartObject (e : t) : bool :=
  match e with StartObject => true | _ => false end.

Definition is_EndObject (e : t) : bool :=
  match e with EndObject _ => true | _ => false end.

End Event.

(** ** FilterKeyHandler (gq.cc lines 31-120) *)

Module FilterKeyHandler.

(** The mutable and immutable members of the class, except the reference
    [outputHandler_], which is the consumer the methods call into. *)
Record t : Type := mk {
  keyString_ : list byte;
  filterValueDepth_ : N;
  filteredKeyCount_ : list N
}.

Definition keyLength_ (h : t) : N := N.of_nat (length (keyString_ h)).

(** The constructor: [filterValueDepth_()] and [filteredKeyCount_()] are
    value-initialised. *)
Definition construct (keyString : list byte) : t :=
  mk keyString 0 [].

Definition set_filterValueDepth_ (d : N) (h : t) : t :=
  mk (keyString_ h) d (filteredKeyCount_ h).

Definition set_filteredKeyCount_ (s : list N) (h : t) : t :=
  mk (keyString_ h) (filterValueDepth_ h) s.

(** What one method call does.  A method calls the output handler at most
    once, so a call is one of:
    - [Return b h]: it returned [b] without calling the output handler and
      left the handler in state [h];
    - [Forward e h k]: it called the output handler's method for [e] while
      its own state was [h]; when that call returns [r], the method
      returns [fst (k r)] and leaves the state [snd (k r)];
    - [Undefined]: it applied [top()] or [pop()] to an empty stack, or read
      past the end of a span. *)
Inductive call : Type :=
| Return (b : bool) (h : t)
| Forward (e : Event.t) (h : t) (k : bool -> bool * t)
| Undefined.

Definition returns (r : bool * t) : call := Return (fst r) (snd r).

(** Lines 109-113. *)
Definition EndValue (h : t) : bool * t :=
  if filterValueDepth_ h =? 1
  then (true, set_filterValueDepth_ 0 h)
  else (true, h).

(** [outputHandler_.M(...) && EndValue()]: [EndValue] runs only when the
    output handler returned true. *)
Definition forward_and_EndValue (e : Event.t) (h : t) : call :=
  Forward e h (fun r => if r then EndValue h else (false, h)).

(** [return outputHandler_.M(...)]. *)
Definition forward (e : Event.t) (h : t) : call :=
  Forward e h (fun r => (r, h)).

(** Lines 40-48. *)
Definition Null (h : t) : call :=
  if 0 <? filterValueDepth_ h then returns (EndValue h)
  else forward_and_EndValue Event.Null h.

Definition Bool (b : bool) (h : t) : call :=
  if 0 <? filterValueDepth_ h then returns (EndValue h)
  else forward_and_EndValue (Event.Bool b) h.

Definition Int (i : Z) (h : t) : call :=
  if 0 <? filterValueDepth_ h then returns (EndValue h)
  else forward_and_EndValue (Event.Int i) h.

Definition Uint (u : N) (h : t) : call :=
  if 0 <? filterValueDepth_ h then returns (EndValue h)
  else forward_and_EndValue (Event.Uint u) h.

Definition Int64 (i : Z) (h : t) : call :=
  if 0 <? filterValueDepth_ h then returns (EndValue h)
  else forward_and_EndValue (Event.Int64 i) h.

Definition Uint64 (u : N) (h : t) : call :=
  if 0 <? filterValueDepth_ h then returns (EndValue h)
  else forward_and_EndValue (Event.Uint64 u) h.

Definition Double (d : N) (h : t) : call :=
  if 0 <? filterValueDepth_ h then returns (EndValue h)
  else forward_and_EndValue (Event.Double d) h.

Definition RawNumber (str : list byte) (copy : bool) (h : t) : call :=
  if 0 <? filterValueDepth_ h then returns (EndValue h)
  else forward_and_EndValue (Event.RawNumber str copy) h.

Definition String (str : list byte) (copy : bool) (h : t) : call :=
  if 0 <? filterValueDepth_ h then returns (EndValue h)
  else forward_and_EndValue (Event.String str copy) h.

(** Lines 50-59. *)
Definition StartObject (h : t) : call :=
  if 0 <? filterValueDepth_ h then
    Return true (set_filterValueDepth_ (uint_succ (filterValueDepth_ h)) h)
  else
    forward Event.StartObject
            (set_filteredKeyCount_ (0 :: filteredKeyCount_ h) h).

(** The condition of line 64,
    [len == keyLength_ && std::memcmp(str, keyString_, len) == 0]:
    the [memcmp] runs only when the lengths agree. *)
Definition is_filtered_key (str : list byte) (h : t) : option bool :=
  if N.of_nat (length str) =? keyLength_ h then
    match memcmp str (keyString_ h) (length str) with
    | Some z => Some (z =? 0)%Z
    | None => None
    end
  else Some false.

(** Lines 61-72. *)
Definition Key (str : list byte) (copy : bool) (h : t) : call :=
  if 0 <? filterValueDepth_ h then Return true h
  else
    match is_filtered_key str h with
    | None => Undefined
    | Some true => Return true (set_filterValueDepth_ 1 h)
    | Some false =>
        match filteredKeyCount_ h with
        | [] => Undefined
        | c :: s =>
            forward (Event.Key str copy)
                    (set_filteredKeyCount_ (uint_succ c :: s) h)
        end
    end.

(** Lines 74-85.  The argument is unnamed in the source. *)
Definition EndObject (_ : N) (h : t) : call :=
  if 0 <? filterValueDepth_ h then
    returns (EndValue (set_filterValueDepth_ (uint_pred (filterValueDepth_ h)) h))
  else
    match filteredKeyCount_ h with
    | [] => Undefined
    | memberCount :: s =>
        forward_and_EndValue (Event.EndObject memberCount)
                             (set_filteredKeyCount_ s h)
    end.

(** Lines 87-94. *)
Definition StartArray (h : t) : call :=
  if 0 <? filterValueDepth_ h then
    Return true (set_filterValueDepth_ (uint_succ (filterValueDepth_ h)) h)
  else
    forward Event.StartArray h.

(** Lines 96-103. *)
Definition EndArray (elementCount : N) (h : t) : call :=
  if 0 <? filterValueDepth_ h then
    returns (EndValue (set_filterValueDepth_ (uint_pred (filterValueDepth_ h)) h))
  else
    forward_and_EndValue (Event.EndArray elementCount) h.

(** The reader calls the method that corresponds to the event. *)
Definition dispatch (h : t) (e : Event.t) : call :=
  match e with
  | Event.Null => Null h
  | Event.Bool b => Bool b h
  | Event.Int i => Int i h
  | Event.Uint u => Uint u h
  | Event.Int64 i => Int64 i h
  | Event.Uint64 u => Uint64 u h
  | Event.Double d => Double d h
  | Event.RawNumber str copy => RawNumber str copy h
  | Event.String str copy => String str copy h
  | Event.StartObject => StartObject h
  | Event.Key str copy => Key str copy h
  | Event.EndObject n => EndObject n h
  | Event.StartArray => StartArray h
  | Event.EndArray n => EndArray n h
  end.

(** The state and the boolean a call ends with, when the output handler
    answers [r] to a forwarded event. *)
Definition finish (c : call) (r : bool) : option (bool * t) :=
  match c with
  | Return b h => Some (b, h)
  | Forward _ _ k => Some (k r)
  | Undefined => None
  end.

(** The end-of-value rule on the suppression depth. *)
Definition end_of_value_rule (d : N) : N := if d =? 1 then 0 else d.

(** The suppression depth at the point where a value-completing event has
    completed its value: a scalar leaves the depth as it found it; the end of
    a suppressed object or array has closed one level. *)
Definition depth_at_end_of_value (h : t) (e : Event.t) : N :=
  if Event.is_scalar e then filterValueDepth_ h
  else if 0 <? filterValueDepth_ h then uint_pred (filterValueDepth_ h)
  else filterValueDepth_ h.

End FilterKeyHandler.

(** ** The reader driving the handler (gq.cc line 137)

    rapidjson's [Reader] is outside gq.cc.  Its contract, as the handler
    sees it: [reader.Parse(is_, filter)] calls one method of [filter] per
    event, in order, and stops at the first method that returns false.  The
    output handler is any implementation of the same handler concept: a
    state and one transition per event that returns the method's boolean. *)

Module Reader.

Inductive status : Type :=
| Completed            (* every event was delivered *)
| Terminated           (* a method returned false *)
| UndefinedBehaviour.  (* a method had undefined behaviour *)

(** One call of the filter into the output handler: the event sent, the
    state of the filter at the moment of the call, and the boolean the
    output handler returned. *)
Record invocation : Type := {
  sent : Event.t;
  at_state : FilterKeyHandler.t;
  answer : bool
}.

Record pass (OutputHandler : Type) : Type := {
  outcome : status;
  filter : FilterKeyHandler.t;
  handler : OutputHandler;
  calls : list invocation
}.
Arguments outcome {OutputHandler}.
Arguments filter {OutputHandler}.
Arguments handler {OutputHandler}.
Arguments calls {OutputHandler}.

Definition called {OutputHandler} (c : invocation) (p : pass OutputHandler)
  : pass OutputHandler :=
  {| outcome := outcome p; filter := filter p; handler := handler p;
     calls := c :: calls p |}.

(** The events the output handler received, in order. *)
Definition forwarded {OutputHandler} (p : pass OutputHandler) : list Event.t :=
  map sent (calls p).

Section Parse.

Variable OutputHandler : Type.
Variable output : OutputHandler -> Event.t -> bool * OutputHandler.

Fixpoint Parse (events : list Event.t) (h : FilterKeyHandler.t)
         (o : OutputHandler) : pass OutputHandler :=
  match events with
  | [] => {| outcome := Completed; filter := h; handler := o; calls := [] |}
  | e :: events' =>
      match FilterKeyHandler.dispatch h e with
      | FilterKeyHandler.Return true h' => Parse events' h' o
      | FilterKeyHandler.Return false h' =>
          {| outcome := Terminated; filter := h'; handler := o; calls := [] |}
      | FilterKeyHandler.Forward e' hc k =>
          let (r, o') := output o e' in
          let (b, h') := k r in
          let c := {| sent := e'; at_state := hc; answer := r |} in
          if b then called c (Parse events' h' o')
          else {| outcome := Terminated; filter := h'; handler := o';
                  calls := [c] |}
      | FilterKeyHandler.Undefined =>
          {| outcome := UndefinedBehaviour; filter := h; handler := o;
             calls := [] |}
      end
  end.

End Parse.

(** An output handler without state that accepts every event. *)
Definition accept_all (o : unit) (_ : Event.t) : bool * unit := (true, o).

(** An output handler that accepts [n] events and rejects the next one. *)
Definition reject_after (n : nat) (_ : Event.t) : bool * nat :=
  match n with
  | O => (false, O)
  | S n' => (true, n')
  end.

End Reader.

(** ** Well-formed event streams

    The reader's side of the contract: the events of one JSON value are a
    scalar, or [StartObject], then a [Key] and the events of a value for each
    member, then [EndObject] with the number of members, or [StartArray],
    the events of each element, then [EndArray] with the number of elements.
    Counts are [SizeType] values: the number of members or elements modulo
    2^32.  The nesting depth stays in the range of a 32-bit counter: at most
    2^32 - 1 containers are open at a time.  [next] recognises the streams
    the reader can produce, one event at a time, so that every prefix of a
    stream has a position. *)

Module Sax.

Inductive container : Type :=
| InObject (value_pending : bool) (members : nat)
| InArray (elements : nat).

Record position : Type := {
  open : list container;    (* innermost first *)
  root_done : bool
}.

Definition start : position := {| open := []; root_done := false |}.

Definition value_allowed (p : position) : bool :=
  match open p with
  | [] => negb (root_done p)
  | InObject value_pending _ :: _ => value_pending
  | InArray _ :: _ => true
  end.

(** The position after a value has been completed inside [containers]. *)
Definition value_completed (containers : list container) : position :=
  match containers with
  | [] => {| open := []; root_done := true |}
  | InObject _ n :: outer =>
      {| open := InObject false (S n) :: outer; root_done := false |}
  | InArray n :: outer =>
      {| open := InArray (S n) :: outer; root_done := false |}
  end.

Definition depth_available (p : position) : bool :=
  N.of_nat (length (open p)) + 1 <? UINT_MODULUS.

Definition next (p : position) (e : Event.t) : option position :=
  match e with
  | Event.StartObject =>
      if value_allowed p && depth_available p
      then Some {| open := InObject false 0 :: open p; root_done := false |}
      else None
  | Event.StartArray =>
      if value_allowed p && depth_available p
      then Some {| open := InArray 0 :: open p; root_done := false |}
      else None
  | Event.Key _ _ =>
      match open p with
      | InObject false n :: outer =>
          Some {| open := InObject true n :: outer; root_done := false |}
      | _ => None
      end
  | Event.EndObject memberCount =>
      match open p with
      | InObject false n :: outer =>
          if memberCount =? SizeType_of_nat n
          then Some (value_completed outer) else None
      | _ => None
      end
  | Event.EndArray elementCount =>
      match open p with
      | InArray n :: outer =>
          if elementCount =? SizeType_of_nat n
          then Some (value_completed outer) else None
      | _ => None
      end
  | _ => if value_allowed p then Some (value_completed (open p)) else None
  end.

Fixpoint read (p : position) (events : list Event.t) : option position :=
  match events with
  | [] => Some p
  | e :: events' =>
      match next p e with
      | Some p' => read p' events'
      | None => None
      end
  end.

(** A stream the reader may have delivered so far. *)
Definition well_formed_prefix (events : list Event.t) : bool :=
  match read start events with Some _ => true | None => false end.

(** The complete stream of one document. *)
Definition well_formed (events : list Event.t) : bool :=
  match read start events with
  | Some p => root_done p
  | None => false
  end.

(** No [Key] event of the stream carries the bytes [key]. *)
Definition key_absent (key : list byte) (events : list Event.t) : bool :=
  negb (existsb (Event.is_Key_of key) events).

End Sax.

(** ** Member counts of a forwarded stream

    "The number of [Key] events forwarded for an object", computed from the
    forwarded events alone.  [open] holds one counter per object that is
    open, innermost first. *)

Module Members.





(** The objects whose [StartObject] was forwarded and whose [EndObject]
    was not yet. *)
Definition started (events : list Event.t) : nat :=
  length (filter Event.is_StartObject events).

Definition ended (events : list Event.t) : nat :=
  length (filter Event.is_EndObject events).

End Members.

(** ** FilterKeyReader (gq.cc lines 122-151) *)

Module FilterKeyReader.

(** rapidjson's [ParseResult]: an error code, [kParseErrorNone = 0] on
    success, and the offset of the error in the input. *)
Record ParseResult : Type := {
  Code : N;
  Offset : N
}.

Definition kParseErrorNone : N := 0.

(** [ParseResult::operator bool], [!IsError()]. *)
Definition succeeded (pr : ParseResult) : bool := Code pr =? kParseErrorNone.

Record t (InputStream : Type) : Type := mk {
  is_ : InputStream;
  keyString_ : list byte;
  parseResult_ : ParseResult
}.
Arguments mk {InputStream}.
Arguments is_ {InputStream}.
Arguments keyString_ {InputStream}.
Arguments parseResult_ {InputStream}.

(** The constructor: [parseResult_()] is value-initialised. *)
Definition construct {InputStream} (stream : InputStream)
           (keyString : list byte) : t InputStream :=
  mk stream keyString {| Code := kParseErrorNone; Offset := 0 |}.

(** Line 135: the filter that [operator()] constructs around its handler. *)
Definition filter {InputStream} (r : t InputStream) : FilterKeyHandler.t :=
  FilterKeyHandler.construct (keyString_ r).

End FilterKeyReader.

(** ** main (gq.cc lines 153-224) *)

Module Main.

Import FilterKeyReader.

(** A rapidjson [Value], as far as [main] looks at one. *)
#[local] Set Warnings "-register-all".
Inductive Value : Type :=
| Null
| Bool (b : bool)
| Number (n : Z)
| String (s : list byte)
| Array (elements : list Value)
| Object (members : list (list byte * Value)).

(** A [FILE*] that [fopen] returned, identified by the bytes it reads. *)
Definition FILE : Type := list byte.

(** The four uses of the ASSERT macro, lines 187, 189, 190 and 192. *)
Inductive assertion : Type :=
| feature_HasMember_geometry   (* "feature has no geometry" *)
| geometry_IsObject            (* "geometry is not an object" *)
| geometry_HasMember_type      (* "geometry has no type" *)
| type_IsString.               (* "geometry type is not a string" *)

(** What [main] writes. *)
Inductive text : Type :=
| usage (argv0 : option (list byte))
    (* "%s input.json\n" *)
| unable_to_open (path : list byte)
    (* "Unable to open " << argv[1] << endl *)
| parse_error (offset : N) (code : N)
    (* "\nError(%u): %s\n", the offset as an unsigned and the English
       description of the error code *)
| assertion_failed (a : assertion)
    (* the text of the ASSERT macro: the condition, the line, the message *)
| features_line (n : N)
    (* "Features: %d\n" *)
| heading (title : string)
    (* "Geometries:\n", "Properties:\n" *)
| count_line (n : Z) (name : list byte).
    (* "  %5d: %s\n" *)

(** [main] as the sequence of its calls into the C library and rapidjson.
    [Populate] stands for [document.Populate(reader)], which runs
    [reader.Parse(is_, filter)] with the filter of line 135 in front of the
    document; it answers with the reader's parse result and the document
    built.  [Abort] is the failure of an assertion inside rapidjson, whose
    accessors assert the type of the value they are applied to. *)
Inductive program : Type :=
| Exit (status : Z)
| Abort
| Stderr (m : text) (k : program)
| Stdout (m : text) (k : program)
| Fopen (path : list byte) (k : option FILE -> program)
| Populate (r : FilterKeyReader.t FILE) (f : FilterKeyHandler.t)
           (k : ParseResult * Value -> program).

Definition EXIT_FAILURE : Z := 1.

(** [std::map<std::string, int>]: the entries in increasing order of their
    keys, which [std::string] compares byte by byte as unsigned values.  An
    [int] counter is an integer here; it would overflow only with its 2^31st
    increment. *)
Definition map_string_int : Type := list (list byte * Z).

Fixpoint bytes_compare (a b : list byte) : comparison :=
  match a, b with
  | [], [] => Eq
  | [], _ :: _ => Lt
  | _ :: _, [] => Gt
  | x :: a', y :: b' =>
      match N.compare (Byte.to_N x) (Byte.to_N y) with
      | Eq => bytes_compare a' b'
      | c => c
      end
  end.

(** [m[key] += 1]: a missing key is inserted with the value 0 first. *)
Fixpoint increment (key : list byte) (m : map_string_int) : map_string_int :=
  match m with
  | [] => [(key, 1%Z)]
  | (k, v) :: m' =>
      match bytes_compare key k with
      | Lt => (key, 1%Z) :: m
      | Eq => (k, (v + 1)%Z) :: m'
      | Gt => (k, v) :: increment key m'
      end
  end.

(** [GetString()] returns a [const char*]; the [std::string] made from it
    ends before the first zero byte. *)
Fixpoint c_string (s : list byte) : list byte :=
  match s with
  | [] => []
  | b :: s' => if Byte.eqb b x00 then [] else b :: c_string s'
  end.

(** [FindMember]: the first member with that name. *)
Fixpoint find_member (name : list byte) (members : list (list byte * Value))
  : option Value :=
  match members with
  | [] => None
  | (k, v) :: members' =>
      if bytes_eqb k name then Some v else find_member name members'
  end.

Definition geometry : list byte := list_byte_of_string "geometry".
Definition type : list byte := list_byte_of_string "type".
Definition id : list byte := list_byte_of_string "id".
Definition properties : list byte := list_byte_of_string "properties".
Definition features : list byte := list_byte_of_string "features".

(** The counters of lines 183-185. *)
Record stats : Type := {
  geometry_counts : map_string_int;
  property_counts : map_string_int;
  id_counts : Z
}.

(** How the body of the loop of line 186 leaves. *)
Inductive step : Type :=
| Continue (s : stats)
| Failed (a : assertion)
| LibraryAssertion.

(** Lines 198-200. *)
Fixpoint count_properties (props : list (list byte * Value))
         (m : map_string_int) : map_string_int :=
  match props with
  | [] => m
  | (name, _) :: props' => count_properties props' (increment (c_string name) m)
  end.

(** Lines 187-201, for one feature.  [HasMember], [operator[]] and
    [GetObject] assert that their value is an object. *)
Definition visit (feature : Value) (s : stats) : step :=
  match feature with
  | Object members =>
      match find_member geometry members with
      | None =>
          Failed feature_HasMember_geometry
      | Some (Object gmembers) =>
          match find_member type gmembers with
          | None =>
              Failed geometry_HasMember_type
          | Some (String ty) =>
              let gc := increment (c_string ty) (geometry_counts s) in
              let ic := match find_member id members with
                        | Some _ => (id_counts s + 1)%Z
                        | None => id_counts s
                        end in
              match find_member properties members with
              | None =>
                  Continue {| geometry_counts := gc;
                              property_counts := property_counts s;
                              id_counts := ic |}
              | Some (Object props) =>
                  Continue {| geometry_counts := gc;
                              property_counts :=
                                count_properties props (property_counts s);
                              id_counts := ic |}
              | Some _ => LibraryAssertion
              end
          | Some _ =>
              Failed type_IsString
          end
      | Some _ =>
          Failed geometry_IsObject
      end
  | _ => LibraryAssertion
  end.

Fixpoint print_counts (m : map_string_int) (k : program) : program :=
  match m with
  | [] => k
  | (name, n) :: m' => Stdout (count_line n name) (print_counts m' k)
  end.

(** Lines 204-223. *)
Definition report (n : N) (s : stats) : program :=
  Stdout (features_line n)
    (Stdout (heading "Geometries:")
       (print_counts (geometry_counts s)
          (Stdout (heading "Properties:")
             (print_counts (property_counts s) (Exit 0))))).

(** Lines 186-202 and what follows them.  The ASSERT macro writes its
    text and calls [std::exit(EXIT_FAILURE)]. *)
Fixpoint collect (fs : list Value) (n : N) (s : stats) : program :=
  match fs with
  | [] => report n s
  | feature :: fs' =>
      match visit feature s with
      | Continue s' => collect fs' n s'
      | Failed a => Stderr (assertion_failed a) (Exit EXIT_FAILURE)
      | LibraryAssertion => Abort
      end
  end.

(** Lines 182-223.  [document["features"]] asserts that the document is an
    object with that member, [GetArray()] that the member is an array;
    [Size()] is a [SizeType].  [id_counts] is not initialised: it starts
    from an indeterminate value and is never read for the output. *)
Definition summarise (id_counts0 : Z) (document : Value) : program :=
  match document with
  | Object members =>
      match find_member features members with
      | Some (Array fs) =>
          collect fs (SizeType_of_nat (length fs))
                  {| geometry_counts := []; property_counts := [];
                     id_counts := id_counts0 |}
      | _ => Abort
      end
  | _ => Abort
  end.

(** Line 170. *)
Definition key : list byte := list_byte_of_string "coordinates".

(** Lines 153-224; [argc] is the length of [argv]. *)
Definition main (id_counts0 : Z) (argv : list (list byte)) : program :=
  if negb (length argv =? 2)%nat then
    Stderr (usage (nth_error argv 0)) (Exit 1)
  else
    let path := nth 1 argv [] in
    Fopen path (fun fp =>
      match fp with
      | None => Stderr (unable_to_open path) (Exit 1)
      | Some stream =>
          let reader := FilterKeyReader.construct stream key in
          Populate reader (FilterKeyReader.filter reader) (fun '(pr, document) =>
            if negb (succeeded pr) then
              Stderr (parse_error (Offset pr mod UINT_MODULUS) (Code pr)) (Exit 1)
            else summarise id_counts0 document)
      end).

(** The environment of one run: which paths [fopen] can open, and what
    the reader and the document make of a stream behind a given filter. *)
Record world : Type := {
  fopen : list byte -> option FILE;
  populate : FilterKeyReader.t FILE -> FilterKeyHandler.t -> ParseResult * Value
}.

(** How a run ends: the exit status, or [None] for an abort, and what was
    written to the two streams. *)
Record run_result : Type := {
  exit_status : option Z;
  stderr : list text;
  stdout : list text
}.

Fixpoint run (w : world) (p : program) : run_result :=
  match p with
  | Exit status => {| exit_status := Some status; stderr := []; stdout := [] |}
  | Abort => {| exit_status := None; stderr := []; stdout := [] |}
  | Stderr m k =>
      let r := run w k in
      {| exit_status := exit_status r; stderr := m :: stderr r;
         stdout := stdout r |}
  | Stdout m k =>
      let r := run w k in
      {| exit_status := exit_status r; stderr := stderr r;
         stdout := m :: stdout r |}
  | Fopen path k => run w (k (fopen w path))
  | Populate r f k => run w (k (populate w r f))
  end.

(** Every [Populate] of a program is given a filter that satisfies [P]. *)
Inductive every_filter (P : FilterKeyHandler.t -> Prop) : program -> Prop :=
| ef_Exit status : every_filter P (Exit status)
| ef_Abort : every_filter P Abort
| ef_Stderr m k : every_filter P k -> every_filter P (Stderr m k)
| ef_Stdout m k : every_filter P k -> every_filter P (Stdout m k)
| ef_Fopen path k :
    (forall fp, every_filter P (k fp)) -> every_filter P (Fopen path k)
| ef_Populate r f k :
    P f -> (forall a, every_filter P (k a)) -> every_filter P (Populate r f k).

(** The documents that pass every assertion of the loop. *)
Definition feature_ok (feature : Value) : bool :=
  match feature with
  | Object members =>
      match find_member geometry members with
      | Some (Object gmembers) =>
          match find_member type gmembers with
          | Some (String _) =>
              match find_member properties members with
              | None | Some (Object _) => true
              | Some _ => false
              end
          | _ => false
          end
      | _ => false
      end
  | _ => false
  end.

Definition features_of (document : Value) : option (list Value) :=
  match document with
  | Object members =>
      match find_member features members with
      | Some (Array fs) => Some fs
      | _ => None
      end
  | _ => None
  end.

(** The lines of the report, for the counters the loop ended with. *)
Definition count_lines (m : map_string_int) : list text :=
  map (fun entry => count_line (snd entry) (fst entry)) m.

Definition summary (n : N) (s : stats) : list text :=
  features_line n :: heading "Geometries:" :: count_lines (geometry_counts s)
    ++ heading "Properties:" :: count_lines (property_counts s).

(** A world for the examples: every path opens the same stream, and the
    pass over it succeeds with the document given. *)
Definition world_with (stream : FILE) (document : Value) : world :=
  {| fopen := fun _ => Some stream;
     populate := fun _ _ => ({| Code := kParseErrorNone; Offset := 0 |}, document) |}.

(** The text {"features":[{}]} and the document it parses to. *)
Definition quoted (s : string) : list byte :=
  x22 :: list_byte_of_string s ++ [x22].

Definition one_empty_feature_text : FILE :=
  list_byte_of_string "{" ++ quoted "features" ++ list_byte_of_string ":[{}]}".

Definition one_empty_feature : Value :=
  Object [(features, Array [Object []])].

(** {"features":[{"geometry":{"type":"Point"},"properties":{"name":1}}]} *)
Definition one_point : Value :=
  Object [(features,
           Array [Object [(geometry, Object [(type, String (list_byte_of_string "Point"))]);
                          (properties, Object [(list_byte_of_string "name", Number 1)])]])].

End Main.


(** ** The filter against the position of the stream

    What the state of the filter has to do with the position the reader is
    at, used as the invariant of a pass over a well-formed stream. *)

Module Simulation.

Import Sax.

Definition is_object (c : container) : bool :=
  match c with InObject _ _ => true | InArray _ => false end.

(** The number of objects among the open containers. *)
Definition objects (cs : list container) : nat := length (filter is_object cs).

(** The number of keys read so far in each open object, innermost first, as
    [SizeType] counters. *)
Fixpoint key_counts (cs : list container) : list N :=
  match cs with
  | [] => []
  | InObject value_pending n :: cs' =>
      SizeType_of_nat (if value_pending then S n else n) :: key_counts cs'
  | InArray _ :: cs' => key_counts cs'
  end.

(** While nothing is suppressed the stack has one entry per open object.
    While the value of a filtered key is suppressed, the depth is one more
    than the number of containers open inside that value, and the stack has
    one entry per object open around it, the object of the filtered key
    included. *)
Inductive related (p : position) (h : FilterKeyHandler.t) : Prop :=
| forwarding :
    N.of_nat (length (open p)) < UINT_MODULUS ->
    FilterKeyHandler.filterValueDepth_ h = 0 ->
    length (FilterKeyHandler.filteredKeyCount_ h) = objects (open p) ->
    related p h
| suppressing (inner : list container) (n : nat) (outer : list container) :
    N.of_nat (length (open p)) < UINT_MODULUS ->
    open p = inner ++ InObject true n :: outer ->
    FilterKeyHandler.filterValueDepth_ h = N.of_nat (length inner) + 1 ->
    length (FilterKeyHandler.filteredKeyCount_ h) = S (objects outer) ->
    related p h.

(** The open containers that were not opened inside a suppressed value:
    all of them while the depth is 0, and otherwise all but the [depth - 1]
    innermost ones. *)
Definition forwarded_containers (h : FilterKeyHandler.t) (p : position)
  : list container :=
  skipn (N.to_nat (FilterKeyHandler.filterValueDepth_ h) - 1) (open p).

(** A container in which a value may start. *)
Definition awaits_value (c : container) : bool :=
  match c with InObject value_pending _ => value_pending | InArray _ => true end.

(** In a stream without the filter key nothing is ever suppressed, and the
    stack holds the key counts of the open objects.  Every container but the
    innermost is one in which a value has started. *)
Definition mirrors (key : list byte) (p : position) (h : FilterKeyHandler.t) : Prop :=
  FilterKeyHandler.keyString_ h = key /\
  FilterKeyHandler.filterValueDepth_ h = 0 /\
  FilterKeyHandler.filteredKeyCount_ h = key_counts (open p) /\
  forallb awaits_value (tl (open p)) = true.

End Simulation.

(** ** Example documents

    JSON values and the events the reader delivers for them without in-situ
    parsing: strings and keys with [copy = true], a number that fits an
    unsigned as [Uint], the counts at the end of objects and arrays. *)

Module Json.

#[local] Set Warnings "-register-all".
Inductive value : Type :=
| Null
| Bool (b : bool)
| Uint (u : N)
| String (s : string)
| Array (elements : list value)
| Object (members : list (string * value)).

Fixpoint events (v : value) : list Event.t :=
  match v with
  | Null => [Event.Null]
  | Bool b => [Event.Bool b]
  | Uint u => [Event.Uint u]
  | String s => [Event.String (list_byte_of_string s) true]
  | Array elements =>
      Event.StartArray
        :: (fix each (vs : list value) : list Event.t :=
              match vs with
              | [] => []
              | v' :: vs' => events v' ++ each vs'
              end) elements
        ++ [Event.EndArray (SizeType_of_nat (length elements))]
  | Object members =>
      Event.StartObject
        :: (fix each (ms : list (string * value)) : list Event.t :=
              match ms with
              | [] => []
              | (k, v') :: ms' =>
                  Event.Key (list_byte_of_string k) true :: events v' ++ each ms'
              end) members
        ++ [Event.EndObject (SizeType_of_nat (length members))]
  end.

(** {"a":{"coordinates":{"x":1,"y":[1,2,{"coordinates":"deep"}]},"b":2}} *)
Definition nested : value :=
  Object [("a", Object [("coordinates",
                         Object [("x", Uint 1);
                                 ("y", Array [Uint 1; Uint 2;
                                              Object [("coordinates", String "deep")]])]);
                        ("b", Uint 2)])]%string.

(** {"a":{"b":2}} *)
Definition nested_filtered : value :=
  Object [("a", Object [("b", Uint 2)])]%string.

End Json.

(** ** Documents as trees

    A document with any scalar events at its leaves and any bytes as keys,
    the events the reader delivers for it, and the document without the
    members named by a key, at any depth. *)

Module Doc.

Inductive t : Type :=
| Scalar (e : Event.t)
| Array (es : elements)
| Object (ms : members)
with elements : Type :=
| ENil
| ECons (v : t) (rest : elements)
with members : Type :=
| MNil
| MCons (key : list byte) (copy : bool) (v : t) (rest : members).

Scheme t_mutual := Induction for t Sort Prop
  with elements_mutual := Induction for elements Sort Prop
  with members_mutual := Induction for members Sort Prop.
Combined Scheme mutual_induction from t_mutual, elements_mutual, members_mutual.

Fixpoint count_elements (es : elements) : nat :=
  match es with
  | ENil => O
  | ECons _ rest => S (count_elements rest)
  end.

Fixpoint count_members (ms : members) : nat :=
  match ms with
  | MNil => O
  | MCons _ _ _ rest => S (count_members rest)
  end.

Fixpoint events (v : t) : list Event.t :=
  match v with
  | Scalar e => [e]
  | Array es =>
      Event.StartArray
        :: events_elements es
        ++ [Event.EndArray (SizeType_of_nat (count_elements es))]
  | Object ms =>
      Event.StartObject
        :: events_members ms
        ++ [Event.EndObject (SizeType_of_nat (count_members ms))]
  end
with events_elements (es : elements) : list Event.t :=
  match es with
  | ENil => []
  | ECons v rest => events v ++ events_elements rest
  end
with events_members (ms : members) : list Event.t :=
  match ms with
  | MNil => []
  | MCons key copy v rest =>
      Event.Key key copy :: events v ++ events_members rest
  end.

(** Every leaf is a scalar event. *)
Fixpoint valid (v : t) : bool :=
  match v with
  | Scalar e => Event.is_scalar e
  | Array es => valid_elements es
  | Object ms => valid_members ms
  end
with valid_elements (es : elements) : bool :=
  match es with
  | ENil => true
  | ECons v rest => valid v && valid_elements rest
  end
with valid_members (ms : members) : bool :=
  match ms with
  | MNil => true
  | MCons _ _ v rest => valid v && valid_members rest
  end.

(** The number of containers nested in one another. *)
Fixpoint height (v : t) : nat :=
  match v with
  | Scalar _ => O
  | Array es => S (height_elements es)
  | Object ms => S (height_members ms)
  end
with height_elements (es : elements) : nat :=
  match es with
  | ENil => O
  | ECons v rest => Nat.max (height v) (height_elements rest)
  end
with height_members (ms : members) : nat :=
  match ms with
  | MNil => O
  | MCons _ _ v rest => Nat.max (height v) (height_members rest)
  end.

(** The document without every member whose key is [name], whatever its
    value, in every object at every depth of what remains. *)
Fixpoint remove (name : list byte) (v : t) : t :=
  match v with
  | Scalar e => Scalar e
  | Array es => Array (remove_elements name es)
  | Object ms => Object (remove_members name ms)
  end
with remove_elements (name : list byte) (es : elements) : elements :=
  match es with
  | ENil => ENil
  | ECons v rest => ECons (remove name v) (remove_elements name rest)
  end
with remove_members (name : list byte) (ms : members) : members :=
  match ms with
  | MNil => MNil
  | MCons key copy v rest =>
      if bytes_eqb key name then remove_members name rest
      else MCons key copy (remove name v) (remove_members name rest)
  end.

End Doc.

(** ** Streams compared *)

Module Stream.

(** An event without the member count of an [EndObject], the one argument
    the filter replaces. *)
Definition without_member_count (e : Event.t) : Event.t :=
  match e with
  | Event.EndObject _ => Event.EndObject 0
  | _ => e
  end.

(** [subsequence a b]: [a] is [b] with some of its elements left out. *)
Inductive subsequence {A : Type} : list A -> list A -> Prop :=
| sub_nil : subsequence [] []
| sub_skip x a b : subsequence a b -> subsequence a (x :: b)
| sub_keep x a b : subsequence a b -> subsequence (x :: a) (x :: b).

(** [prefix a b]: [b] starts with [a]. *)
Definition prefix {A : Type} (a b : list A) : Prop := exists rest, b = a ++ rest.

(** [continues p events p']: the pass [p] forwards [events] and then goes
    on as the pass [p']. *)
Definition continues {OutputHandler : Type}
           (p : Reader.pass OutputHandler) (events : list Event.t)
           (p' : Reader.pass OutputHandler) : Prop :=
  Reader.outcome p = Reader.outcome p' /\
  Reader.filter p = Reader.filter p' /\
  Reader.forwarded p = events ++ Reader.forwarded p'.

End Stream.

(** ** The counters of the report as maps *)

Module Counts.

Import Main.

(** The largest value of an [int]. *)
Definition INT_MAX : Z := (2 ^ 31 - 1)%Z.

(** Every count is at least 1 and at most [INT_MAX]: a value an [int]
    reaches from 0 by increments without overflow. *)
Definition in_int_range (m : map_string_int) : bool :=
  forallb (fun entry => (1 <=? snd entry)%Z && (snd entry <=? INT_MAX)%Z) m.

(** The keys increase strictly from each entry to the next. *)
Fixpoint increasing (m : map_string_int) : bool :=
  match m with
  | [] => true
  | (k, _) :: m' =>
      match m' with
      | [] => true
      | (k', _) :: _ =>
          match bytes_compare k k' with Lt => increasing m' | _ => false end
      end
  end.

(** The sum of all counts. *)
Fixpoint total (m : map_string_int) : Z :=
  match m with
  | [] => 0%Z
  | (_, v) :: m' => (v + total m')%Z
  end.

(** The number of members of the "properties" objects of the features. *)
Definition properties_of (feature : Value) : nat :=
  match feature with
  | Object members =>
      match find_member properties members with
      | Some (Object props) => length props
      | _ => O
      end
  | _ => O
  end.

Fixpoint properties_in (fs : list Value) : nat :=
  match fs with
  | [] => O
  | feature :: fs' => (properties_of feature + properties_in fs')%nat
  end.

End Counts.

(** * Properties *)

(** ** Spans and machine integers *)

Lemma byte_eqb_refl (b : byte) : Byte.eqb b b = true.
Proof. now apply Byte.byte_dec_lb. Qed.

Lemma bytes_eqb_eq (s1 s2 : list byte) : bytes_eqb s1 s2 = true <-> s1 = s2.
Proof.
  revert s2; induction s1 as [|a s1 IH]; intros [|b s2]; simpl;
    try (split; [discriminate | congruence]); [tauto|].
  rewrite andb_true_iff, IH. split.
  - intros [Hab ->]. now rewrite (Byte.byte_dec_bl _ _ Hab).
  - intros [= -> ->]. now rewrite byte_eqb_refl.
Qed.

Lemma memcmp_same_length (s1 s2 : list byte) :
  length s1 = length s2 ->
  exists z, memcmp s1 s2 (length s1) = Some z /\ (z = 0%Z <-> s1 = s2).
Proof.
  revert s2; induction s1 as [|a s1 IH]; intros [|b s2]; simpl; try discriminate.
  - intros _. exists 0%Z. tauto.
  - intros [= Hlen]. destruct (Byte.eqb a b) eqn:Hab.
    + apply Byte.byte_dec_bl in Hab as ->.
      destruct (IH s2 Hlen) as (z & -> & Hz). exists z. split; [reflexivity|].
      rewrite Hz. split; congruence.
    + eexists. split; [reflexivity|]. split.
      * intros Hz. exfalso.
        assert (Byte.to_N a = Byte.to_N b) as Hn by lia.
        assert (Some a = Some b) as [= ->] by (rewrite <- !Byte.of_to_N; congruence).
        rewrite byte_eqb_refl in Hab. discriminate.
      * intros [= -> _]. rewrite byte_eqb_refl in Hab. discriminate.
Qed.

(** The comparison of line 64 never reads past a span, and it holds exactly
    when the key is the filter key, byte for byte. *)
Lemma is_filtered_key_spec (str : list byte) (h : FilterKeyHandler.t) :
  exists b, FilterKeyHandler.is_filtered_key str h = Some b /\
            (b = true <-> str = FilterKeyHandler.keyString_ h).
Proof.
  unfold FilterKeyHandler.is_filtered_key, FilterKeyHandler.keyLength_.
  destruct (N.eqb_spec (N.of_nat (length str))
                       (N.of_nat (length (FilterKeyHandler.keyString_ h)))) as [Hl|Hl].
  - apply Nat2N.inj in Hl.
    destruct (memcmp_same_length _ _ Hl) as (z & -> & Hz).
    exists (z =? 0)%Z. split; [reflexivity|]. now rewrite Z.eqb_eq.
  - exists false. split; [reflexivity|]. split; [discriminate|].
    intros ->. contradiction.
Qed.

Lemma is_filtered_key_eqb (str : list byte) (h : FilterKeyHandler.t) :
  FilterKeyHandler.is_filtered_key str h
  = Some (bytes_eqb str (FilterKeyHandler.keyString_ h)).
Proof.
  destruct (is_filtered_key_spec str h) as (b & -> & Hb). f_equal.
  destruct b.
  - symmetry. apply bytes_eqb_eq. now apply Hb.
  - destruct (bytes_eqb str _) eqn:E; [|reflexivity].
    apply bytes_eqb_eq, Hb in E. discriminate.
Qed.

Lemma SizeType_of_nat_S (n : nat) :
  SizeType_of_nat (S n) = uint_succ (SizeType_of_nat n).
Proof.
  unfold SizeType_of_nat, uint_succ.
  rewrite Nat2N.inj_succ, <- N.add_1_r.
  now rewrite N.Div0.add_mod_idemp_l.
Qed.

Lemma not_positive (d : N) : (0 <? d) = false -> d = 0.
Proof. rewrite N.ltb_ge. lia. Qed.

(** ** One method call *)

Module Import Tactics.

Import FilterKeyHandler.

Ltac unfold_methods :=
  cbn [dispatch];
  unfold Null, Bool, Int, Uint, Int64, Uint64, Double, RawNumber, String,
    StartObject, Key, EndObject, StartArray, EndArray,
    forward_and_EndValue, forward, returns.

(** Splits a call into the branches of its method. *)
Ltac method_cases h e :=
  destruct e; unfold_methods;
  try rewrite is_filtered_key_eqb;
  destruct (0 <? filterValueDepth_ h) eqn:?;
  try match goal with
      | |- context [bytes_eqb ?s ?k] => destruct (bytes_eqb s k) eqn:?
      end;
  try match goal with
      | |- context [match filteredKeyCount_ ?x with _ => _ end] =>
          destruct (filteredKeyCount_ x) eqn:?
      end.

End Tactics.

Section OneCall.

Import FilterKeyHandler.

Lemma EndValue_true (h : t) : fst (EndValue h) = true.
Proof. unfold EndValue. now destruct (_ =? 1). Qed.

Lemma EndValue_depth (h : t) :
  filterValueDepth_ (snd (EndValue h)) = end_of_value_rule (filterValueDepth_ h).
Proof. unfold EndValue, end_of_value_rule. now destruct (_ =? 1). Qed.

Lemma EndValue_stack (h : t) :
  filteredKeyCount_ (snd (EndValue h)) = filteredKeyCount_ h.
Proof. unfold EndValue. now destruct (_ =? 1). Qed.

Lemma EndValue_key (h : t) : keyString_ (snd (EndValue h)) = keyString_ h.
Proof. unfold EndValue. now destruct (_ =? 1). Qed.

Lemma EndValue_at_0 (h : t) : filterValueDepth_ h = 0 -> EndValue h = (true, h).
Proof. unfold EndValue. now intros ->. Qed.

(** A method calls the output handler only from the branch taken when
    [filterValueDepth_ > 0] is false, and does not change the depth before
    the call. *)
Lemma Forward_at_depth_0 (h : t) (e e' : Event.t) (hc : t) (k : bool -> bool * t) :
  dispatch h e = Forward e' hc k ->
  filterValueDepth_ h = 0 /\ filterValueDepth_ hc = 0.
Proof.
  method_cases h e; try discriminate;
    intros [= <- <- <-]; cbn; auto using not_positive.
Qed.

(** A rejected forward: the method returns false and leaves the state of
    the moment of the call. *)
Lemma Forward_rejected (h : t) (e e' : Event.t) (hc : t) (k : bool -> bool * t) :
  dispatch h e = Forward e' hc k -> k false = (false, hc).
Proof.
  method_cases h e; try discriminate; now intros [= <- <- <-].
Qed.

(** An accepted forward: the method returns true, and only the end-of-value
    rule may touch the state, which it does not at depth 0. *)
Lemma Forward_accepted (h : t) (e e' : Event.t) (hc : t) (k : bool -> bool * t) :
  dispatch h e = Forward e' hc k -> k true = (true, hc).
Proof.
  intros H. destruct (Forward_at_depth_0 _ _ _ _ _ H) as [_ H0]. revert H H0.
  method_cases h e; try discriminate; intros [= <- <- <-] H0;
    auto using EndValue_at_0.
Qed.

(** A method that does not call the output handler returns true. *)
Lemma Return_true (h : t) (e : Event.t) (b : bool) (h' : t) :
  dispatch h e = Return b h' -> b = true.
Proof.
  method_cases h e; try discriminate; intros [= <- <-];
    auto using EndValue_true.
Qed.

(** The depth is an [unsigned]: inside a suppressed value, the container
    that is opened at depth 2^32 - 1 wraps it to 0.  The streams of [Sax]
    never nest that deep. *)
Lemma depth_counter_wraps (key : list byte) (s : list N) :
  StartArray (mk key (UINT_MODULUS - 1) s) = Return true (mk key 0 s) /\
  StartObject (mk key (UINT_MODULUS - 1) s) = Return true (mk key 0 s).
Proof. split; reflexivity. Qed.

End OneCall.

(** ** The suppression depth *)

Section Passes.

Import FilterKeyHandler Reader.

Variable OutputHandler : Type.
Variable output : OutputHandler -> Event.t -> bool * OutputHandler.

(** One step of [Parse], by the shape of the call. *)
Lemma Parse_cons (e : Event.t) (events : list Event.t) (h : t) (o : OutputHandler) :
  Parse OutputHandler output (e :: events) h o =
  match dispatch h e with
  | Return true h' => Parse OutputHandler output events h' o
  | Return false h' =>
      {| outcome := Terminated; filter := h'; handler := o; calls := [] |}
  | Forward e' hc k =>
      let (r, o') := output o e' in
      let (b, h') := k r in
      let c := {| sent := e'; at_state := hc; answer := r |} in
      if b then called c (Parse OutputHandler output events h' o')
      else {| outcome := Terminated; filter := h'; handler := o'; calls := [c] |}
  | Undefined =>
      {| outcome := UndefinedBehaviour; filter := h; handler := o; calls := [] |}
  end.
Proof. reflexivity. Qed.

(** C3.  Whatever the events, the state the filter starts from and the output
    handler, every call of a method of the output handler, for a scalar, a
    key or the start or end of an object or array, is made at a moment when
    [filterValueDepth_] is 0: nothing is forwarded from inside a suppressed
    subtree. *)
Theorem forwards_only_at_depth_0 (events : list Event.t) (h : t) (o : OutputHandler) :
  Forall (fun c => filterValueDepth_ (at_state c) = 0)
         (calls (Parse OutputHandler output events h o)).
Proof.
  revert h o. induction events as [|e events IH]; intros h o.
  - constructor.
  - rewrite Parse_cons. destruct (dispatch h e) as [[|] h'|e' hc k|] eqn:D;
      cbn; auto.
    destruct (Forward_at_depth_0 _ _ _ _ _ D) as [_ H0].
    destruct (output o e') as [r o']. destruct (k r) as [[|] h']; cbn; auto.
Qed.

(** After a rejection nothing more is forwarded, and the pass ends in the
    state of the moment of the rejected call. *)
Lemma rejection_is_last (events : list Event.t) (h : t) (o : OutputHandler)
      (before after : list invocation) (c : invocation) :
  calls (Parse OutputHandler output events h o) = before ++ c :: after ->
  answer c = false ->
  after = [] /\
  outcome (Parse OutputHandler output events h o) = Terminated /\
  filter (Parse OutputHandler output events h o) = at_state c.
Proof.
  revert h o before. induction events as [|e events IH]; intros h o before.
  - cbn. now destruct before.
  - rewrite Parse_cons. destruct (dispatch h e) as [[|] h'|e' hc k|] eqn:D;
      cbn; try (now destruct before); [now apply IH|].
    destruct (output o e') as [[|] o'].
    + rewrite (Forward_accepted _ _ _ _ _ D). cbn.
      destruct before as [|c0 before]; cbn.
      * intros [= <- _]. discriminate.
      * intros [= _ Hc]. now apply (IH _ _ _ Hc).
    + rewrite (Forward_rejected _ _ _ _ _ D). cbn.
      destruct before as [|c0 [|c1 before]]; cbn; try discriminate.
      now intros [= <- <-].
Qed.

End Passes.

(** C4.  After a scalar, an [EndObject] or an [EndArray], suppressed or
    forwarded, accepted or rejected by the output handler, the suppression
    depth is what the end-of-value rule makes of the depth at the point where
    the value was completed: 0 if that depth was 1, and that depth
    otherwise. *)
Theorem end_of_value_rule_applies
        (h : FilterKeyHandler.t) (e : Event.t) (r b : bool) (h' : FilterKeyHandler.t) :
  Event.completes_value e = true ->
  FilterKeyHandler.finish (FilterKeyHandler.dispatch h e) r = Some (b, h') ->
  FilterKeyHandler.filterValueDepth_ h'
  = FilterKeyHandler.end_of_value_rule (FilterKeyHandler.depth_at_end_of_value h e).
Proof.
  intros He Hf. apply (f_equal (option_map snd)) in Hf. revert Hf.
  unfold FilterKeyHandler.depth_at_end_of_value.
  method_cases h e; try discriminate He; cbn [Event.is_scalar];
    try discriminate; destruct r; cbn; intros [= <-];
    rewrite ?EndValue_depth; cbn;
    try match goal with
        | H : (0 <? _) = false |- _ => apply not_positive in H; rewrite H
        end;
    reflexivity.
Qed.

Lemma end_of_value_rule_applies_witness :
  FilterKeyHandler.filterValueDepth_ (FilterKeyHandler.mk [] 0 [7])
  = FilterKeyHandler.end_of_value_rule
      (FilterKeyHandler.depth_at_end_of_value
         (FilterKeyHandler.mk [] 2 [7]) (Event.EndArray 3)).
Proof.
  apply (end_of_value_rule_applies (FilterKeyHandler.mk [] 2 [7]) (Event.EndArray 3) true true);
    reflexivity.
Defined.

(** C5.  A [Key] event.  While suppressing, the method returns true and
    changes nothing, whatever the bytes of the key.  Otherwise, when the key
    is the filter key, byte for byte and of the same length, it sets the depth
    to 1 and returns true without a forward.  Otherwise it increments the
    top of the member-count stack and forwards the key, returning what the
    output handler returns. *)
Theorem Key_cases (h : FilterKeyHandler.t) (str : list byte) (copy : bool) :
  (0 < FilterKeyHandler.filterValueDepth_ h ->
   FilterKeyHandler.Key str copy h = FilterKeyHandler.Return true h) /\
  (FilterKeyHandler.filterValueDepth_ h = 0 ->
   str = FilterKeyHandler.keyString_ h ->
   FilterKeyHandler.Key str copy h
   = FilterKeyHandler.Return true (FilterKeyHandler.set_filterValueDepth_ 1 h)) /\
  (FilterKeyHandler.filterValueDepth_ h = 0 ->
   str <> FilterKeyHandler.keyString_ h ->
   forall (c : N) (s : list N),
     FilterKeyHandler.filteredKeyCount_ h = c :: s ->
     let h1 := FilterKeyHandler.set_filteredKeyCount_ (uint_succ c :: s) h in
     FilterKeyHandler.Key str copy h
     = FilterKeyHandler.Forward (Event.Key str copy) h1 (fun r => (r, h1))).
Proof.
  unfold FilterKeyHandler.Key. rewrite is_filtered_key_eqb. repeat split.
  - intros Hd. apply N.ltb_lt in Hd. now rewrite Hd.
  - intros -> ->. cbn. now rewrite (proj2 (bytes_eqb_eq _ _) eq_refl).
  - intros -> Hne c s ->. cbn.
    destruct (bytes_eqb str _) eqn:E; [|reflexivity].
    now apply bytes_eqb_eq in E.
Qed.

Lemma Key_cases_witness :
  FilterKeyHandler.Key (list_byte_of_string "a") true
    (FilterKeyHandler.mk (list_byte_of_string "coordinates") 0 [4; 1])
  = FilterKeyHandler.Forward
      (Event.Key (list_byte_of_string "a") true)
      (FilterKeyHandler.mk (list_byte_of_string "coordinates") 0 [5; 1])
      (fun r => (r, FilterKeyHandler.mk (list_byte_of_string "coordinates") 0 [5; 1])).
Proof.
  refine (proj2 (proj2 (Key_cases
            (FilterKeyHandler.mk (list_byte_of_string "coordinates") 0 [4; 1])
            (list_byte_of_string "a") true)) eq_refl _ 4 [1] eq_refl).
  discriminate.
Defined.

(** C7.  When a method forwards an event and the output handler returns
    false, the method returns false and leaves the filter in the state it had
    at the moment of the call: what it changed before the call stays
    changed, as the member count that [EndObject] popped.  In a pass, a
    rejected call is the last call: the pass is terminated, in that state. *)
Theorem rejection_aborts :
  (forall (h : FilterKeyHandler.t) (e e' : Event.t) (hc : FilterKeyHandler.t)
          (k : bool -> bool * FilterKeyHandler.t),
      FilterKeyHandler.dispatch h e = FilterKeyHandler.Forward e' hc k ->
      k false = (false, hc)) /\
  (forall (h : FilterKeyHandler.t) (n memberCount : N) (s : list N),
      FilterKeyHandler.filterValueDepth_ h = 0 ->
      FilterKeyHandler.filteredKeyCount_ h = memberCount :: s ->
      FilterKeyHandler.finish (FilterKeyHandler.EndObject n h) false
      = Some (false, FilterKeyHandler.set_filteredKeyCount_ s h)) /\
  (forall (OutputHandler : Type)
          (output : OutputHandler -> Event.t -> bool * OutputHandler)
          (events : list Event.t) (h : FilterKeyHandler.t) (o : OutputHandler)
          (before after : list Reader.invocation) (c : Reader.invocation),
      Reader.calls (Reader.Parse OutputHandler output events h o)
      = before ++ c :: after ->
      Reader.answer c = false ->
      after = [] /\
      Reader.outcome (Reader.Parse OutputHandler output events h o)
      = Reader.Terminated /\
      Reader.filter (Reader.Parse OutputHandler output events h o)
      = Reader.at_state c).
Proof.
  split; [exact Forward_rejected|]. split; [|exact rejection_is_last].
  intros h n memberCount s Hd Hs. unfold FilterKeyHandler.EndObject.
  now rewrite Hd, Hs.
Qed.

Lemma rejection_aborts_witness :
  let h := FilterKeyHandler.construct (list_byte_of_string "coordinates") in
  let events := [Event.StartObject; Event.EndObject 0; Event.Null] in
  let p := Reader.Parse nat Reader.reject_after events h 1%nat in
  Reader.forwarded p = [Event.StartObject; Event.EndObject 0] /\
  Reader.outcome p = Reader.Terminated /\
  FilterKeyHandler.filteredKeyCount_ (Reader.filter p) = [].
Proof.
  cbv zeta.
  destruct (proj2 (proj2 rejection_aborts) nat Reader.reject_after
              [Event.StartObject; Event.EndObject 0; Event.Null]
              (FilterKeyHandler.construct (list_byte_of_string "coordinates"))
              1%nat
              [{| Reader.sent := Event.StartObject;
                  Reader.at_state :=
                    FilterKeyHandler.mk (list_byte_of_string "coordinates") 0 [0];
                  Reader.answer := true |}]
              []
              {| Reader.sent := Event.EndObject 0;
                 Reader.at_state :=
                   FilterKeyHandler.mk (list_byte_of_string "coordinates") 0 [];
                 Reader.answer := false |}
              eq_refl eq_refl) as (_ & Ho & Hf).
  split; [reflexivity|]. split; [exact Ho|]. now rewrite Hf.
Defined.

(** ** The member-count stack *)

Section Stack.

Import FilterKeyHandler.

Lemma Forward_answer (h : t) (e e' : Event.t) (hc : t) (k : bool -> bool * t) (r : bool) :
  dispatch h e = Forward e' hc k -> k r = (r, hc).
Proof.
  destruct r; eauto using Forward_accepted, Forward_rejected.
Qed.

(** A method that returns without a forward leaves the stack alone. *)
Lemma Return_stack (h : t) (e : Event.t) (b : bool) (h' : t) :
  dispatch h e = Return b h' -> filteredKeyCount_ h' = filteredKeyCount_ h.
Proof.
  method_cases h e; try discriminate; intros [= <- <-];
    rewrite ?EndValue_stack; reflexivity.
Qed.

(** What a method has done to the stack at the moment of a forward: pushed
    a zero for [StartObject], incremented the top for [Key], popped the count
    it sends for [EndObject], and nothing otherwise. *)
Lemma Forward_stack (h : t) (e e' : Event.t) (hc : t) (k : bool -> bool * t) :
  dispatch h e = Forward e' hc k ->
  match e' with
  | Event.StartObject => filteredKeyCount_ hc = 0 :: filteredKeyCount_ h
  | Event.Key _ _ =>
      exists c s, filteredKeyCount_ h = c :: s /\
                  filteredKeyCount_ hc = uint_succ c :: s
  | Event.EndObject n => filteredKeyCount_ h = n :: filteredKeyCount_ hc
  | _ => filteredKeyCount_ hc = filteredKeyCount_ h
  end.
Proof.
  method_cases h e; try discriminate; intros [= <- <- <-]; cbn; eauto.
Qed.

(** Undefined behaviour has one source: [top()] on an empty stack, in the
    branch of [Key] or of [EndObject] that is taken at depth 0. *)
Lemma Undefined_on_empty_stack (h : t) (e : Event.t) :
  dispatch h e = Undefined ->
  filterValueDepth_ h = 0 /\ filteredKeyCount_ h = [] /\
  (Event.is_EndObject e = true \/ exists str copy, e = Event.Key str copy).
Proof.
  method_cases h e; try discriminate; intros _;
    repeat split; eauto using not_positive.
Qed.


End Stack.

Section Counting.

Import FilterKeyHandler Reader.

Variable OutputHandler : Type.
Variable output : OutputHandler -> Event.t -> bool * OutputHandler.


(** The stack grows by one with every [StartObject] forwarded and shrinks
    by one with every [EndObject] forwarded. *)
Lemma stack_size (events : list Event.t) (h : t) (o : OutputHandler) :
  let p := Parse OutputHandler output events h o in
  (length (filteredKeyCount_ (filter p)) + Members.ended (forwarded p)
   = Members.started (forwarded p) + length (filteredKeyCount_ h))%nat.
Proof.
  revert h o. induction events as [|e events IH]; intros h o.
  - cbn. lia.
  - cbv zeta. rewrite Parse_cons.
    destruct (dispatch h e) as [[|] h'|e' hc k|] eqn:D.
    + rewrite <- (Return_stack _ _ _ _ D). apply IH.
    + apply Return_true in D. discriminate.
    + pose proof (Forward_stack _ _ _ _ _ D) as Hst.
      destruct (output o e') as [r o'].
      rewrite (Forward_answer _ _ _ _ _ r D).
      assert (forall rest : pass OutputHandler,
                 (length (filteredKeyCount_ (filter rest)) + Members.ended (forwarded rest)
                  = Members.started (forwarded rest) + length (filteredKeyCount_ hc))%nat ->
                 (length (filteredKeyCount_ (filter rest))
                  + Members.ended (e' :: forwarded rest)
                  = Members.started (e' :: forwarded rest)
                    + length (filteredKeyCount_ h))%nat) as Hstep.
      { intros rest Hrest. unfold Members.started, Members.ended in *.
        destruct e'; cbn [List.filter Event.is_StartObject Event.is_EndObject length];
          try (rewrite <- Hst; exact Hrest).
        - rewrite Hst in Hrest. cbn in Hrest. lia.
        - destruct Hst as (c & s & Hh & Hc). rewrite Hh, Hc in *. exact Hrest.
        - rewrite Hst. cbn. lia. }
      destruct r; cbn -[Members.started Members.ended].
      * apply (Hstep (Parse OutputHandler output events hc o')), IH.
      * apply (Hstep {| outcome := Terminated; filter := hc; handler := o';
                        calls := [] |}).
        cbn. lia.
    + cbn. lia.
Qed.

End Counting.

(** ** A pass over a well-formed stream *)

Section WellFormed.

Import FilterKeyHandler Sax Simulation.

Lemma uint_succ_small (x : N) : x + 1 < UINT_MODULUS -> uint_succ x = x + 1.
Proof. intros H. unfold uint_succ. now apply N.mod_small. Qed.

Lemma uint_pred_small (x : N) : 0 < x -> x < UINT_MODULUS -> uint_pred x = x - 1.
Proof.
  intros H0 H. unfold uint_pred.
  replace (x + UINT_MODULUS - 1) with (x - 1 + 1 * UINT_MODULUS) by lia.
  rewrite N.Div0.mod_add. apply N.mod_small. lia.
Qed.

Lemma value_completed_length (cs : list container) :
  length (open (value_completed cs)) = length cs.
Proof. now destruct cs as [|[]]. Qed.

Lemma value_completed_objects (cs : list container) :
  objects (open (value_completed cs)) = objects cs.
Proof. now destruct cs as [|[]]. Qed.

(** Completing a value inside a suppressed subtree. *)
Lemma related_completed (h : t) (inner : list container)
      (n : nat) (outer : list container) :
  N.of_nat (length (inner ++ InObject true n :: outer)) < UINT_MODULUS ->
  filterValueDepth_ h = N.of_nat (length inner) + 1 ->
  length (filteredKeyCount_ h) = S (objects outer) ->
  related (value_completed (inner ++ InObject true n :: outer)) (snd (EndValue h)).
Proof.
  intros Hb Hd Hs. rewrite length_app in Hb. cbn [length] in Hb.
  destruct inner as [|c' inner].
  - cbn in *. apply forwarding; cbn.
    + lia.
    + rewrite EndValue_depth, Hd. reflexivity.
    + now rewrite EndValue_stack.
  - assert (EndValue h = (true, h)) as ->.
    { unfold EndValue. rewrite Hd. cbn [length].
      destruct (N.eqb_spec (N.of_nat (S (length inner)) + 1) 1); [lia|reflexivity]. }
    cbn [snd].
    assert (exists c'', open (value_completed ((c' :: inner) ++ InObject true n :: outer))
                        = (c'' :: inner) ++ InObject true n :: outer) as [c'' Hc].
    { destruct c'; cbn; eauto. }
    eapply suppressing; [|exact Hc|exact Hd|exact Hs].
    rewrite Hc. cbn [app length] in *. rewrite length_app. cbn [length]. lia.
Qed.

Lemma objects_cons_object (b : bool) (n : nat) (cs : list container) :
  objects (InObject b n :: cs) = S (objects cs).
Proof. reflexivity. Qed.

Lemma objects_cons_array (n : nat) (cs : list container) :
  objects (InArray n :: cs) = objects cs.
Proof. reflexivity. Qed.

(** One event of a well-formed stream, while nothing is suppressed. *)
Lemma related_step_forwarding (p p' : position) (h : t) (e : Event.t) :
  N.of_nat (length (open p)) < UINT_MODULUS ->
  filterValueDepth_ h = 0 ->
  length (filteredKeyCount_ h) = objects (open p) ->
  next p e = Some p' ->
  (exists h', dispatch h e = Return true h' /\ related p' h') \/
  (exists e' hc k, dispatch h e = Forward e' hc k /\ related p' hc).
Proof.
  intros Hb Hd Hs Hn. destruct p as [cs rd]. cbn [open] in *.
  assert ((0 <? filterValueDepth_ h) = false) as Hz by now rewrite Hd.
  destruct e; cbn [next open] in Hn; unfold_methods;
    rewrite ?is_filtered_key_eqb, Hz.
  all: try (destruct (value_allowed _); [|discriminate]; cbn [andb] in Hn).
  all: try (injection Hn as <-; right; do 3 eexists; split; [reflexivity|];
            apply forwarding;
            [now rewrite value_completed_length|exact Hd
            |now rewrite value_completed_objects]).
  - (* StartObject *)
    destruct (depth_available _) eqn:Hda; [|discriminate]. injection Hn as <-.
    apply N.ltb_lt in Hda. cbn [open] in Hda.
    right; do 3 eexists; split; [reflexivity|].
    apply forwarding; cbn [open length filteredKeyCount_ filterValueDepth_
                           set_filteredKeyCount_];
      [lia|exact Hd|now rewrite objects_cons_object, Hs].
  - (* Key *)
    destruct cs as [|[[|] n|n] outer]; try discriminate. injection Hn as <-.
    rewrite objects_cons_object in Hs.
    destruct (bytes_eqb str (keyString_ h)).
    + left; eexists; split; [reflexivity|].
      apply (suppressing _ _ [] n outer); cbn; auto.
    + destruct (filteredKeyCount_ h) as [|c s] eqn:Hst; [discriminate|].
      right; do 3 eexists; split; [reflexivity|].
      apply forwarding; cbn; auto.
  - (* EndObject *)
    destruct cs as [|[[|] n|n] outer]; try discriminate.
    destruct (_ =? _); [|discriminate]. injection Hn as <-.
    rewrite objects_cons_object in Hs.
    destruct (filteredKeyCount_ h) as [|c s] eqn:Hst; [discriminate|].
    right; do 3 eexists; split; [reflexivity|].
    cbn [length] in *.
    apply forwarding; cbn [filteredKeyCount_ filterValueDepth_ set_filteredKeyCount_];
      [rewrite value_completed_length; lia|exact Hd
      |rewrite value_completed_objects; lia].
  - (* StartArray *)
    destruct (depth_available _) eqn:Hda; [|discriminate]. injection Hn as <-.
    apply N.ltb_lt in Hda. cbn [open] in Hda.
    right; do 3 eexists; split; [reflexivity|].
    apply forwarding; cbn [open length]; [lia|exact Hd|exact Hs].
  - (* EndArray *)
    destruct cs as [|[[|] n|n] outer]; try discriminate.
    destruct (_ =? _); [|discriminate]. injection Hn as <-.
    rewrite objects_cons_array in Hs. cbn [length] in *.
    right; do 3 eexists; split; [reflexivity|].
    apply forwarding;
      [rewrite value_completed_length; lia|exact Hd
      |now rewrite value_completed_objects].
Qed.

(** One event of a well-formed stream, inside a suppressed value. *)
Lemma related_step_suppressing (p p' : position) (h : t) (e : Event.t)
      (inner : list container) (n : nat) (outer : list container) :
  N.of_nat (length (open p)) < UINT_MODULUS ->
  open p = inner ++ InObject true n :: outer ->
  filterValueDepth_ h = N.of_nat (length inner) + 1 ->
  length (filteredKeyCount_ h) = S (objects outer) ->
  next p e = Some p' ->
  exists h', dispatch h e = Return true h' /\ related p' h'.
Proof.
  intros Hb Ho Hd Hs Hn. destruct p as [cs rd]. cbn [open] in *. subst cs.
  assert ((0 <? filterValueDepth_ h) = true) as Hz by (apply N.ltb_lt; lia).
  pose proof Hb as Hlen. rewrite length_app in Hlen. cbn [length] in Hlen.
  destruct e; cbn [next open] in Hn; unfold_methods; rewrite Hz.
  all: try (destruct (value_allowed _); [|discriminate]; cbn [andb] in Hn).
  all: try (injection Hn as <-; exists (snd (EndValue h));
            split; [now rewrite EndValue_true|];
            now apply related_completed).
  - (* StartObject *)
    destruct (depth_available _) eqn:Hda; [|discriminate]. injection Hn as <-.
    apply N.ltb_lt in Hda. cbn [open] in Hda.
    rewrite length_app in Hda. cbn [length] in Hda.
    eexists; split; [reflexivity|].
    apply (suppressing _ _ (InObject false 0 :: inner) n outer);
      cbn [open length app filteredKeyCount_ filterValueDepth_
           set_filterValueDepth_]; auto.
    + rewrite length_app. cbn [length]. lia.
    + rewrite Hd, uint_succ_small; lia.
  - (* Key *)
    destruct inner as [|[[|] m|m] inner]; try discriminate. injection Hn as <-.
    eexists; split; [reflexivity|].
    apply (suppressing _ _ (InObject true m :: inner) n outer); auto.
  - (* EndObject *)
    destruct inner as [|[[|] m|m] inner]; try discriminate.
    cbn [app] in Hn. destruct (_ =? _); [|discriminate]. injection Hn as <-.
    cbn [length app] in *.
    eexists; split; [now rewrite EndValue_true|].
    apply related_completed; cbn [filteredKeyCount_ filterValueDepth_
                                  set_filterValueDepth_]; auto.
    + rewrite length_app. cbn [length]. lia.
    + rewrite Hd, uint_pred_small; lia.
  - (* StartArray *)
    destruct (depth_available _) eqn:Hda; [|discriminate]. injection Hn as <-.
    apply N.ltb_lt in Hda. cbn [open] in Hda.
    rewrite length_app in Hda. cbn [length] in Hda.
    eexists; split; [reflexivity|].
    apply (suppressing _ _ (InArray 0 :: inner) n outer);
      cbn [open length app filteredKeyCount_ filterValueDepth_
           set_filterValueDepth_]; auto.
    + rewrite length_app. cbn [length]. lia.
    + rewrite Hd, uint_succ_small; lia.
  - (* EndArray *)
    destruct inner as [|[[|] m|m] inner]; try discriminate.
    cbn [app] in Hn. destruct (_ =? _); [|discriminate]. injection Hn as <-.
    cbn [length app] in *.
    eexists; split; [now rewrite EndValue_true|].
    apply related_completed; cbn [filteredKeyCount_ filterValueDepth_
                                  set_filterValueDepth_]; auto.
    + rewrite length_app. cbn [length]. lia.
    + rewrite Hd, uint_pred_small; lia.
Qed.

Lemma related_step (p p' : position) (h : t) (e : Event.t) :
  related p h -> next p e = Some p' ->
  (exists h', dispatch h e = Return true h' /\ related p' h') \/
  (exists e' hc k, dispatch h e = Forward e' hc k /\ related p' hc).
Proof.
  intros [Hb Hd Hs|inner n outer Hb Ho Hd Hs] Hn.
  - eauto using related_step_forwarding.
  - left. eauto using related_step_suppressing.
Qed.

Lemma key_counts_value_completed (cs : list container) :
  forallb awaits_value (firstn 1 cs) = true ->
  key_counts (open (value_completed cs)) = key_counts cs.
Proof. destruct cs as [|[[|] n|n] cs]; cbn; congruence. Qed.

Lemma tl_value_completed (cs : list container) :
  tl (open (value_completed cs)) = tl cs.
Proof. now destruct cs as [|[]]. Qed.

(** One event of a well-formed stream that is not the filter key: it is
    forwarded as it is. *)
Lemma mirrors_step (key : list byte) (p p' : position) (h : t) (e : Event.t) :
  mirrors key p h -> next p e = Some p' -> Event.is_Key_of key e = false ->
  exists hc k, dispatch h e = Forward e hc k /\ mirrors key p' hc.
Proof.
  intros (Hk & Hd & Hs & Hp) Hn He. destruct p as [cs rd]. cbn [open] in *.
  assert ((0 <? filterValueDepth_ h) = false) as Hz by now rewrite Hd.
  assert (forall c, forallb awaits_value (firstn 1 (c :: cs)) = awaits_value c) as Htop
      by (intros c; cbn; now rewrite andb_true_r).
  destruct e; cbn [next open] in Hn; unfold_methods;
    rewrite ?is_filtered_key_eqb, Hz.
  all: try (destruct (value_allowed _) eqn:Hv; [|discriminate]; cbn [andb] in Hn).
  all: try (injection Hn as <-; do 2 eexists; split; [reflexivity|];
            repeat split; auto;
            [ rewrite key_counts_value_completed; auto;
              destruct cs as [|[] cs]; cbn in *; now rewrite ?Hv
            | now rewrite tl_value_completed ]).
  - (* StartObject *)
    destruct (depth_available _); [|discriminate]. injection Hn as <-.
    do 2 eexists; split; [reflexivity|]. repeat split; auto.
    + cbn. now rewrite Hs.
    + cbn [open tl]. destruct cs as [|c cs]; [reflexivity|].
      cbn in Hv, Hp |- *. rewrite Hp. destruct c; cbn in *; now rewrite ?Hv.
  - (* Key *)
    destruct cs as [|[[|] n|n] outer]; try discriminate. injection Hn as <-.
    cbn in He. rewrite Hk, He. rewrite Hs. cbn [key_counts].
    do 2 eexists; split; [reflexivity|]. repeat split; auto.
    cbn. now rewrite SizeType_of_nat_S.
  - (* EndObject *)
    destruct cs as [|[[|] n|n] outer]; try discriminate.
    destruct (N.eqb_spec memberCount (SizeType_of_nat n)) as [->|]; [|discriminate].
    injection Hn as <-. rewrite Hs. cbn [key_counts].
    do 2 eexists; split; [reflexivity|]. cbn [tl] in Hp. repeat split; auto.
    + cbn [filteredKeyCount_ set_filteredKeyCount_].
      rewrite key_counts_value_completed; auto.
      destruct outer; cbn in *; [reflexivity|].
      apply andb_true_iff in Hp as [-> _]. reflexivity.
    + rewrite tl_value_completed. destruct outer; cbn in *; [reflexivity|].
      now apply andb_true_iff in Hp as [_ ->].
  - (* StartArray *)
    destruct (depth_available _); [|discriminate]. injection Hn as <-.
    do 2 eexists; split; [reflexivity|]. repeat split; auto.
    cbn [open tl]. destruct cs as [|c cs]; [reflexivity|].
    cbn in Hv, Hp |- *. rewrite Hp. destruct c; cbn in *; now rewrite ?Hv.
  - (* EndArray *)
    destruct cs as [|[[|] n|n] outer]; try discriminate.
    destruct (N.eqb_spec elementCount (SizeType_of_nat n)) as [->|]; [|discriminate].
    injection Hn as <-.
    do 2 eexists; split; [reflexivity|]. cbn [tl] in Hp. repeat split; auto.
    + rewrite key_counts_value_completed; auto.
      destruct outer; cbn in *; [reflexivity|].
      apply andb_true_iff in Hp as [-> _]. reflexivity.
    + rewrite tl_value_completed. destruct outer; cbn in *; [reflexivity|].
      now apply andb_true_iff in Hp as [_ ->].
Qed.

Lemma related_forwarded_containers (p : position) (h : t) :
  related p h ->
  length (filteredKeyCount_ h) = objects (forwarded_containers h p).
Proof.
  unfold forwarded_containers.
  intros [Hb Hd Hs|inner n outer Hb Ho Hd Hs].
  - now rewrite Hd.
  - rewrite Hd, Ho.
    replace (N.to_nat (N.of_nat (length inner) + 1) - 1)%nat
      with (length inner) by lia.
    now rewrite skipn_app, skipn_all, Nat.sub_diag.
Qed.

Lemma related_start (key : list byte) : related start (construct key).
Proof. now apply forwarding. Qed.

Lemma mirrors_start (key : list byte) : mirrors key start (construct key).
Proof. now repeat split. Qed.

Lemma read_firstn (events : list Event.t) (n : nat) (p p' : position) :
  read p events = Some p' -> exists p'', read p (firstn n events) = Some p''.
Proof.
  revert n p. induction events as [|e events IH]; intros [|n] p; cbn; eauto.
  destruct (next p e); [|discriminate]. eauto.
Qed.

End WellFormed.

Section WellFormedPass.

Import FilterKeyHandler Reader Sax Simulation.

Variable OutputHandler : Type.
Variable output : OutputHandler -> Event.t -> bool * OutputHandler.

(** Over a well-formed stream no method has undefined behaviour, and a
    pass that completes ends related to the position reached. *)
Lemma Parse_related (events : list Event.t) (p p' : position) (h : t)
      (o : OutputHandler) :
  related p h -> read p events = Some p' ->
  outcome (Parse OutputHandler output events h o) <> UndefinedBehaviour /\
  (outcome (Parse OutputHandler output events h o) = Completed ->
   related p' (filter (Parse OutputHandler output events h o))).
Proof.
  revert p h o. induction events as [|e events IH]; intros p h o Hr Hread.
  - cbn in *. injection Hread as <-. split; [discriminate|auto].
  - cbn [read] in Hread. destruct (next p e) as [p1|] eqn:Hn; [|discriminate].
    rewrite Parse_cons.
    destruct (related_step _ _ _ _ Hr Hn)
      as [(h' & -> & Hr')|(e' & hc & k & D & Hr')].
    + now apply (IH p1).
    + rewrite D. destruct (output o e') as [r o'].
      rewrite (Forward_answer _ _ _ _ _ r D).
      destruct r; cbn.
      * now apply (IH p1).
      * split; discriminate.
Qed.

(** Over a well-formed stream without the filter key, what is forwarded is
    the stream itself, up to the event the output handler rejects. *)
Lemma Parse_mirrors (key : list byte) (events : list Event.t) (p p' : position)
      (h : t) (o : OutputHandler) :
  mirrors key p h -> read p events = Some p' ->
  existsb (Event.is_Key_of key) events = false ->
  (exists rest, events = forwarded (Parse OutputHandler output events h o) ++ rest) /\
  ((forall o e, fst (output o e) = true) ->
   outcome (Parse OutputHandler output events h o) = Completed /\
   forwarded (Parse OutputHandler output events h o) = events).
Proof.
  revert p h o. induction events as [|e events IH]; intros p h o Hm Hread Habs.
  - cbn. split; [now exists []|auto].
  - cbn [read] in Hread. destruct (next p e) as [p1|] eqn:Hn; [|discriminate].
    cbn [existsb] in Habs. apply orb_false_iff in Habs as [He Habs].
    destruct (mirrors_step _ _ _ _ _ Hm Hn He) as (hc & k & D & Hm').
    rewrite Parse_cons, D.
    destruct (output o e) as [r o'] eqn:Hout.
    rewrite (Forward_answer _ _ _ _ _ r D).
    destruct (IH p1 hc o' Hm' Hread Habs) as [[rest Hrest] Hall].
    destruct r; cbn.
    + split.
      * exists rest. unfold forwarded in *. cbn. now rewrite <- Hrest.
      * intros Hacc. destruct (Hall Hacc) as [-> Hf]. split; [reflexivity|].
        unfold forwarded in *. cbn. now rewrite Hf.
    + split.
      * now exists events.
      * intros Hacc. specialize (Hacc o e). rewrite Hout in Hacc. discriminate.
Qed.

End WellFormedPass.

(** ** The properties of a pass *)

(** C1.  Over a well-formed stream in which no [Key] event carries the
    bytes of the filter key, what the filter forwards is the stream itself,
    event for event, member counts and element counts included: it is always
    an initial part of the stream, and all of it when the output handler
    accepts every event, in which case the pass completes. *)
Theorem identity_without_filter_key
        (key : list byte) (events : list Event.t)
        (OutputHandler : Type)
        (output : OutputHandler -> Event.t -> bool * OutputHandler)
        (o : OutputHandler) :
  Sax.well_formed events = true ->
  Sax.key_absent key events = true ->
  let p := Reader.Parse OutputHandler output events
                        (FilterKeyHandler.construct key) o in
  (exists rest, events = Reader.forwarded p ++ rest) /\
  ((forall o' e, fst (output o' e) = true) ->
   Reader.outcome p = Reader.Completed /\ Reader.forwarded p = events).
Proof.
  unfold Sax.well_formed, Sax.key_absent. intros Hwf Habs.
  destruct (Sax.read Sax.start events) as [p'|] eqn:Hread; [|discriminate].
  apply negb_true_iff in Habs.
  exact (Parse_mirrors OutputHandler output key events Sax.start p' _ o
                       (mirrors_start key) Hread Habs).
Qed.

Lemma identity_without_filter_key_witness :
  Reader.forwarded
    (Reader.Parse unit Reader.accept_all (Json.events Json.nested_filtered)
                  (FilterKeyHandler.construct Main.key) tt)
  = Json.events Json.nested_filtered.
Proof.
  apply (identity_without_filter_key Main.key (Json.events Json.nested_filtered)
           unit Reader.accept_all tt eq_refl eq_refl).
  reflexivity.
Defined.






(** C6.  Filtering the events of
    {"a":{"coordinates":{"x":1,"y":[1,2,{"coordinates":"deep"}]},"b":2}}
    on the key "coordinates" forwards the events of {"a":{"b":2}}, the inner
    object with the member count 1.  The key "coordinates" inside the
    suppressed value is the thirteenth event; after it the depth is 4, the
    number of containers open below the first match plus one, not 1 as after
    a match, and forwarding resumes with the key "b". *)
Theorem nested_match :
  let filter := FilterKeyHandler.construct (list_byte_of_string "coordinates") in
  let events := Json.events Json.nested in
  let p := Reader.Parse unit Reader.accept_all events filter tt in
  let K := fun s => Event.Key (list_byte_of_string s) true in
  events
  = [Event.StartObject; K "a"; Event.StartObject; K "coordinates";
     Event.StartObject; K "x"; Event.Uint 1; K "y"; Event.StartArray;
     Event.Uint 1; Event.Uint 2; Event.StartObject; K "coordinates";
     Event.String (list_byte_of_string "deep") true; Event.EndObject 1;
     Event.EndArray 3; Event.EndObject 2; K "b"; Event.Uint 2;
     Event.EndObject 2; Event.EndObject 1]%string /\
  Sax.well_formed events = true /\
  Reader.outcome p = Reader.Completed /\
  Reader.forwarded p = Json.events Json.nested_filtered /\
  Reader.forwarded p
  = [Event.StartObject; Event.Key (list_byte_of_string "a") true;
     Event.StartObject; Event.Key (list_byte_of_string "b") true;
     Event.Uint 2; Event.EndObject 1; Event.EndObject 1] /\
  nth_error events 12 = Some (Event.Key (list_byte_of_string "coordinates") true) /\
  FilterKeyHandler.filterValueDepth_
    (Reader.filter (Reader.Parse unit Reader.accept_all (firstn 13 events) filter tt))
  = 4 /\
  FilterKeyHandler.filterValueDepth_ (Reader.filter p) = 0 /\
  FilterKeyHandler.filteredKeyCount_ (Reader.filter p) = [].
Proof. repeat split. Qed.

(** C8.  After every event of a well-formed stream, no method has had
    undefined behaviour, that is, [top()] and [pop()] found the stack
    non-empty in the branches of [Key] and [EndObject] taken at depth 0.  The
    size of the stack is the number of objects whose [StartObject] has been
    forwarded and whose [EndObject] has not; and, as long as no event was
    rejected, it is the number of objects among the open containers that were
    not opened inside a suppressed value. *)
Theorem stack_counts_open_forwarded_objects
        (key : list byte) (events : list Event.t) (n : nat)
        (OutputHandler : Type)
        (output : OutputHandler -> Event.t -> bool * OutputHandler)
        (o : OutputHandler) :
  Sax.well_formed events = true ->
  let p := Reader.Parse OutputHandler output (firstn n events)
                        (FilterKeyHandler.construct key) o in
  Reader.outcome p <> Reader.UndefinedBehaviour /\
  (length (FilterKeyHandler.filteredKeyCount_ (Reader.filter p))
   + Members.ended (Reader.forwarded p)
   = Members.started (Reader.forwarded p))%nat /\
  (Reader.outcome p = Reader.Completed ->
   forall pos, Sax.read Sax.start (firstn n events) = Some pos ->
     length (FilterKeyHandler.filteredKeyCount_ (Reader.filter p))
     = Simulation.objects (Simulation.forwarded_containers (Reader.filter p) pos)).
Proof.
  unfold Sax.well_formed. intros Hwf.
  destruct (Sax.read Sax.start events) as [p'|] eqn:Hread; [|discriminate].
  destruct (read_firstn events n _ _ Hread) as [pos Hpos].
  destruct (Parse_related OutputHandler output (firstn n events) Sax.start pos _ o
                          (related_start key) Hpos) as [Hub Hrel].
  split; [exact Hub|]. split.
  - pose proof (stack_size OutputHandler output (firstn n events)
                           (FilterKeyHandler.construct key) o) as H.
    cbn in H. cbn. lia.
  - intros Hc pos' Hpos'. rewrite Hpos in Hpos'. injection Hpos' as <-.
    now apply related_forwarded_containers, Hrel.
Qed.

Lemma stack_counts_open_forwarded_objects_witness :
  let p := Reader.Parse unit Reader.accept_all
                        (firstn 14 (Json.events Json.nested))
                        (FilterKeyHandler.construct Main.key) tt in
  (length (FilterKeyHandler.filteredKeyCount_ (Reader.filter p))
   + Members.ended (Reader.forwarded p)
   = Members.started (Reader.forwarded p))%nat.
Proof.
  exact (proj1 (proj2 (stack_counts_open_forwarded_objects
                         Main.key (Json.events Json.nested) 14
                         unit Reader.accept_all tt eq_refl))).
Defined.

(** ** main *)

Section MainProperties.

Import FilterKeyReader Main.

Variable w : world.

Lemma run_print_counts (m : map_string_int) (k : program) :
  run w (print_counts m k)
  = {| exit_status := exit_status (run w k);
       stderr := stderr (run w k);
       stdout := count_lines m ++ stdout (run w k) |}.
Proof.
  induction m as [|[name n] m IH]; cbn.
  - now destruct (run w k).
  - now rewrite IH.
Qed.

Lemma run_report (n : N) (s : stats) :
  run w (report n s)
  = {| exit_status := Some 0%Z; stderr := []; stdout := summary n s |}.
Proof.
  unfold report, summary. cbn [run]. rewrite run_print_counts. cbn [run].
  rewrite run_print_counts. cbn [run exit_status stderr stdout].
  now rewrite app_nil_r.
Qed.

(** A feature passes the body of the loop exactly when it is an object with
    an object "geometry" that has a string "type", and with "properties", if
    any, an object. *)
Lemma visit_feature_ok (feature : Value) (s : stats) :
  if feature_ok feature
  then exists s', visit feature s = Continue s'
  else visit feature s = LibraryAssertion \/ exists a, visit feature s = Failed a.
Proof.
  unfold feature_ok, visit.
  destruct feature as [| | | |?|members]; auto.
  destruct (find_member geometry members) as [[| | | |?|gmembers]|]; eauto.
  destruct (find_member type gmembers) as [[| | |ty|?|?]|]; eauto.
  destruct (find_member properties members) as [[| | | |?|?]|]; eauto.
Qed.

Lemma run_collect (fs : list Value) (n : N) (s : stats) :
  if forallb feature_ok fs
  then exists s', run w (collect fs n s) = run w (report n s')
  else stdout (run w (collect fs n s)) = [] /\
       (run w (collect fs n s)
        = {| exit_status := None; stderr := []; stdout := [] |} \/
        exists a, run w (collect fs n s)
                  = {| exit_status := Some EXIT_FAILURE;
                       stderr := [assertion_failed a]; stdout := [] |}).
Proof.
  revert s. induction fs as [|feature fs IH]; intros s; cbn [forallb collect].
  - eauto.
  - pose proof (visit_feature_ok feature s) as Hv.
    destruct (feature_ok feature); cbn [andb].
    + destruct Hv as [s' ->]. apply IH.
    + destruct Hv as [->|[a ->]]; cbn; eauto.
Qed.

Lemma every_filter_print_counts (P : FilterKeyHandler.t -> Prop)
      (m : map_string_int) (k : program) :
  every_filter P k -> every_filter P (print_counts m k).
Proof.
  intros Hk. induction m as [|[name n] m IH]; cbn; [exact Hk|].
  now constructor.
Qed.

Lemma every_filter_collect (P : FilterKeyHandler.t -> Prop)
      (fs : list Value) (n : N) (s : stats) :
  every_filter P (collect fs n s).
Proof.
  revert s. induction fs as [|feature fs IH]; intros s; cbn.
  - unfold report. repeat (constructor || apply every_filter_print_counts).
  - destruct (visit feature s); [apply IH|repeat constructor|constructor].
Qed.

Lemma every_filter_summarise (P : FilterKeyHandler.t -> Prop)
      (id_counts0 : Z) (document : Value) :
  every_filter P (summarise id_counts0 document).
Proof.
  unfold summarise.
  destruct document as [| | | |?|members]; try constructor.
  destruct (find_member features members) as [[| | | |fs|?]|]; try constructor.
  apply every_filter_collect.
Qed.

End MainProperties.

(** C9, as stated, fails.  With one argument, a file that opens and a parse
    that succeeds on {"features":[{}]}, the feature has no "geometry": the
    assertion of line 187 writes its text and exits with [EXIT_FAILURE], and
    no summary is printed.  And an unopenable file is answered with "Unable
    to open" and the path, not with the usage text. *)
Lemma main_exit_status_counterexample :
  let argv := [list_byte_of_string "gq"; list_byte_of_string "in.json"] in
  let w := Main.world_with Main.one_empty_feature_text Main.one_empty_feature in
  let closed := {| Main.fopen := fun _ => None; Main.populate := Main.populate w |} in
  (length argv = 2%nat /\
   Main.fopen w (list_byte_of_string "in.json") = Some Main.one_empty_feature_text /\
   (forall r f, FilterKeyReader.succeeded (fst (Main.populate w r f)) = true) /\
   Main.run w (Main.main 0 argv)
   = {| Main.exit_status := Some 1%Z;
        Main.stderr := [Main.assertion_failed Main.feature_HasMember_geometry];
        Main.stdout := [] |}) /\
  Main.run closed (Main.main 0 argv)
  = {| Main.exit_status := Some 1%Z;
       Main.stderr := [Main.unable_to_open (list_byte_of_string "in.json")];
       Main.stdout := [] |}.
Proof. repeat split. Qed.

(** C9, amended.  [main] exits with 1 after the usage text when it is not
    given exactly one argument, with 1 after "Unable to open" and the path
    when the file cannot be opened, and with 1 after the offset, as an
    unsigned, and the description of the error code when the parse fails.
    After a successful parse it exits with 0 after the summary when the
    document is an object whose "features" is an array of objects that each
    have an object "geometry" with a string "type" and, if any, an object
    "properties".  When a feature is not so, nothing is printed to the
    standard output, and the run ends in a failed assertion: one of [main],
    with its text and the status [EXIT_FAILURE], or one of the library.
    When the document is not an object with an array "features", the run
    ends in a failed assertion of the library. *)
Theorem main_exit_status (w : Main.world) (id_counts0 : Z) (argv : list (list byte)) :
  let r := Main.run w (Main.main id_counts0 argv) in
  (length argv <> 2%nat ->
   r = {| Main.exit_status := Some 1%Z;
          Main.stderr := [Main.usage (nth_error argv 0)];
          Main.stdout := [] |}) /\
  (forall prog path,
      argv = [prog; path] ->
      match Main.fopen w path with
      | None =>
          r = {| Main.exit_status := Some 1%Z;
                 Main.stderr := [Main.unable_to_open path];
                 Main.stdout := [] |}
      | Some stream =>
          let reader := FilterKeyReader.construct stream Main.key in
          let (pr, document) :=
            Main.populate w reader (FilterKeyReader.filter reader) in
          if FilterKeyReader.succeeded pr then
            match Main.features_of document with
            | Some fs =>
                if forallb Main.feature_ok fs then
                  exists s,
                    r = {| Main.exit_status := Some 0%Z;
                           Main.stderr := [];
                           Main.stdout :=
                             Main.summary (SizeType_of_nat (length fs)) s |}
                else
                  r = {| Main.exit_status := None; Main.stderr := [];
                         Main.stdout := [] |} \/
                  exists a,
                    r = {| Main.exit_status := Some Main.EXIT_FAILURE;
                           Main.stderr := [Main.assertion_failed a];
                           Main.stdout := [] |}
            | None =>
                r = {| Main.exit_status := None; Main.stderr := [];
                       Main.stdout := [] |}
            end
          else
            r = {| Main.exit_status := Some 1%Z;
                   Main.stderr :=
                     [Main.parse_error (FilterKeyReader.Offset pr mod UINT_MODULUS)
                                       (FilterKeyReader.Code pr)];
                   Main.stdout := [] |}
      end).
Proof.
  cbv zeta. split.
  - intros Hn. unfold Main.main.
    destruct (Nat.eqb_spec (length argv) 2); [contradiction|reflexivity].
  - intros prog path ->. unfold Main.main. cbn [length Nat.eqb negb nth Main.run].
    destruct (Main.fopen w path) as [stream|]; [|reflexivity].
    cbn [Main.run].
    destruct (Main.populate w _ _) as [pr document].
    destruct (FilterKeyReader.succeeded pr); [|reflexivity]. cbn [negb].
    unfold Main.features_of, Main.summarise.
    destruct document as [| | | |?|members]; try reflexivity.
    destruct (Main.find_member Main.features members) as [[| | | |fs|?]|];
      try reflexivity.
    pose proof (run_collect w fs (SizeType_of_nat (length fs))
                  {| Main.geometry_counts := []; Main.property_counts := [];
                     Main.id_counts := id_counts0 |}) as Hc.
    destruct (forallb Main.feature_ok fs).
    + destruct Hc as [s' ->]. exists s'. apply run_report.
    + tauto.
Qed.

Lemma main_exit_status_witness :
  Main.run (Main.world_with [] Main.one_point) (Main.main 0 [])
  = {| Main.exit_status := Some 1%Z;
       Main.stderr := [Main.usage None];
       Main.stdout := [] |} /\
  exists s,
    Main.run (Main.world_with [] Main.one_point)
             (Main.main 0 [list_byte_of_string "gq"; list_byte_of_string "in.json"])
    = {| Main.exit_status := Some 0%Z;
         Main.stderr := [];
         Main.stdout := Main.summary 1 s |}.
Proof.
  split.
  - apply (proj1 (main_exit_status (Main.world_with [] Main.one_point) 0 [])).
    discriminate.
  - exact (proj2 (main_exit_status
                    (Main.world_with [] Main.one_point) 0
                    [list_byte_of_string "gq"; list_byte_of_string "in.json"])
                 (list_byte_of_string "gq") (list_byte_of_string "in.json")
                 eq_refl).
Defined.

(** C10.  Whatever the arguments and whatever the file system and the
    library answer, every pass that [main] starts is given a filter
    constructed with the eleven bytes "coordinates" as its key, at depth 0
    with an empty stack. *)
Theorem filter_key_is_coordinates (id_counts0 : Z) (argv : list (list byte)) :
  Main.every_filter
    (fun f =>
       FilterKeyHandler.keyString_ f = list_byte_of_string "coordinates" /\
       FilterKeyHandler.keyLength_ f = 11 /\
       FilterKeyHandler.filterValueDepth_ f = 0 /\
       FilterKeyHandler.filteredKeyCount_ f = [])
    (Main.main id_counts0 argv).
Proof.
  unfold Main.main. destruct (negb _).
  - repeat constructor.
  - constructor. intros [stream|]; [|repeat constructor].
    constructor; [now repeat split|].
    intros [pr document]. destruct (negb _); [repeat constructor|].
    apply every_filter_summarise.
Qed.

(** * Further properties *)

(** ** Passes in general *)

Section AnyPass.

Import FilterKeyHandler Reader.

Variable OutputHandler : Type.
Variable output : OutputHandler -> Event.t -> bool * OutputHandler.

(** An event that is forwarded is the event that was delivered, except for
    the member count of an [EndObject]. *)
Lemma Forward_same_event (h : t) (e e' : Event.t) (hc : t) (k : bool -> bool * t) :
  dispatch h e = Forward e' hc k ->
  Stream.without_member_count e' = Stream.without_member_count e.
Proof.
  method_cases h e; try discriminate; now intros [= <- <- <-].
Qed.

(** X2.  Whatever the stream, the state the filter starts from and the
    output handler: the events forwarded are events of the stream, in the
    order of the stream, changed at most in the member count of an
    [EndObject].  The filter adds no event and reorders none. *)
Theorem forwarded_is_subsequence (events : list Event.t) (h : t) (o : OutputHandler) :
  Stream.subsequence
    (map Stream.without_member_count
         (forwarded (Parse OutputHandler output events h o)))
    (map Stream.without_member_count events).
Proof.
  revert h o. induction events as [|e events IH]; intros h o.
  - constructor.
  - rewrite Parse_cons. cbn [map].
    assert (forall l, Stream.subsequence [] (map Stream.without_member_count l))
      as Hnil by (intros l; induction l; constructor; auto).
    destruct (dispatch h e) as [[|] h'|e' hc k|] eqn:D.
    + constructor. apply IH.
    + constructor. apply Hnil.
    + rewrite <- (Forward_same_event _ _ _ _ _ D).
      destruct (output o e') as [r o']. destruct (k r) as [[|] h']; cbn.
      * apply Stream.sub_keep, IH.
      * apply Stream.sub_keep, Hnil.
    + constructor. apply Hnil.
Qed.

(** X3.  What the filter forwards does not depend on the output handler:
    with any output handler the calls are an initial part of the calls made
    to a handler that accepts everything, cut after the first call that is
    rejected. *)
Theorem forwarded_up_to_rejection (events : list Event.t) (h : t) (o : OutputHandler) :
  Stream.prefix
    (map (fun c => (sent c, at_state c))
         (calls (Parse OutputHandler output events h o)))
    (map (fun c => (sent c, at_state c))
         (calls (Parse unit accept_all events h tt))).
Proof.
  revert h o. induction events as [|e events IH]; intros h o.
  - now exists [].
  - rewrite !Parse_cons.
    destruct (dispatch h e) as [[|] h'|e' hc k|] eqn:D;
      try (eexists; reflexivity); [apply IH|].
    destruct (output o e') as [r o']. cbn [accept_all].
    rewrite (Forward_answer _ _ _ _ _ r D), (Forward_answer _ _ _ _ _ true D).
    cbn. destruct r; cbn.
    + destruct (IH hc o') as [rest Hrest]. exists rest. cbn. now rewrite Hrest.
    + eexists. reflexivity.
Qed.

End AnyPass.

Section OneCallMore.

Import FilterKeyHandler.

(** X4.  While the filter is suppressing, every method returns true without
    calling the output handler and without touching the stack or the key:
    inside a suppressed value nothing is forwarded, nothing fails and nothing
    is undefined, whatever the events. *)
Theorem suppressed_is_silent (h : t) (e : Event.t) :
  0 < filterValueDepth_ h ->
  exists h', dispatch h e = Return true h' /\
             filteredKeyCount_ h' = filteredKeyCount_ h /\
             keyString_ h' = keyString_ h.
Proof.
  intros Hd. apply N.ltb_lt in Hd.
  destruct e; unfold_methods; rewrite Hd;
    eexists; (split; [try reflexivity; now rewrite EndValue_true|]);
    rewrite ?EndValue_stack, ?EndValue_key; auto.
Qed.

(** X5.  A method has undefined behaviour exactly when, at depth 0 and with
    an empty stack, it is [EndObject], or [Key] with a key other than the
    filter key: the events of a stream that closes an object it did not
    open, or has a key outside any object. *)
Theorem Undefined_iff (h : t) (e : Event.t) :
  dispatch h e = Undefined <->
  filterValueDepth_ h = 0 /\ filteredKeyCount_ h = [] /\
  (Event.is_EndObject e = true \/
   exists str copy, e = Event.Key str copy /\ str <> keyString_ h).
Proof.
  split.
  - intros H. destruct (Undefined_on_empty_stack _ _ H) as (Hd & Hs & He).
    repeat split; auto. destruct He as [He|(str & copy & ->)]; auto.
    right. exists str, copy. split; [reflexivity|]. intros ->.
    revert H. cbn. unfold Key. rewrite Hd, is_filtered_key_eqb. cbn.
    now rewrite (proj2 (bytes_eqb_eq _ _) eq_refl).
  - intros (Hd & Hs & [He|(str & copy & -> & Hne)]).
    + destruct e; try discriminate. cbn. unfold EndObject. now rewrite Hd, Hs.
    + cbn. unfold Key. rewrite Hd, Hs, is_filtered_key_eqb. cbn.
      destruct (bytes_eqb str (keyString_ h)) eqn:E; [|reflexivity].
      now apply bytes_eqb_eq in E.
Qed.

End OneCallMore.

Lemma suppressed_is_silent_witness :
  exists h',
    FilterKeyHandler.dispatch (FilterKeyHandler.mk [] 3 [7]) (Event.EndObject 9)
    = FilterKeyHandler.Return true h' /\
    FilterKeyHandler.filteredKeyCount_ h' = [7] /\
    FilterKeyHandler.keyString_ h' = [].
Proof.
  apply (suppressed_is_silent (FilterKeyHandler.mk [] 3 [7]) (Event.EndObject 9)).
  reflexivity.
Defined.

Lemma Undefined_iff_witness :
  FilterKeyHandler.dispatch (FilterKeyHandler.construct (list_byte_of_string "coordinates"))
                            (Event.EndObject 0)
  = FilterKeyHandler.Undefined.
Proof.
  apply (proj2 (Undefined_iff
                  (FilterKeyHandler.construct (list_byte_of_string "coordinates"))
                  (Event.EndObject 0))).
  repeat split. now left.
Defined.

(** ** Passes over well-formed streams, continued *)

Section KeyString.

Import FilterKeyHandler Reader.

Lemma Return_key (h : FilterKeyHandler.t) (e : Event.t) (b : bool)
      (h' : FilterKeyHandler.t) :
  dispatch h e = Return b h' -> keyString_ h' = keyString_ h.
Proof.
  method_cases h e; try discriminate; intros [= <- <-];
    rewrite ?EndValue_key; reflexivity.
Qed.

(** A key that is forwarded is not the filter key; the key of the filter
    is the same at the moment of the call. *)
Lemma Forward_key (h : FilterKeyHandler.t) (e e' : Event.t)
      (hc : FilterKeyHandler.t) (k : bool -> bool * FilterKeyHandler.t) :
  dispatch h e = Forward e' hc k ->
  Event.is_Key_of (keyString_ h) e' = false /\ keyString_ hc = keyString_ h.
Proof.
  method_cases h e; try discriminate; intros [= <- <- <-]; cbn; auto.
Qed.

Variable OutputHandler : Type.
Variable output : OutputHandler -> Event.t -> bool * OutputHandler.

Lemma Parse_key (events : list Event.t) (h : FilterKeyHandler.t) (o : OutputHandler) :
  keyString_ (filter (Parse OutputHandler output events h o)) = keyString_ h.
Proof.
  revert h o. induction events as [|e events IH]; intros h o; [reflexivity|].
  rewrite Parse_cons. destruct (dispatch h e) as [[|] h'|e' hc k|] eqn:D.
  - rewrite IH. eapply Return_key; eauto.
  - eapply Return_key; eauto.
  - destruct (output o e') as [r o'].
    rewrite (Forward_answer _ _ _ _ _ r D).
    destruct (Forward_key _ _ _ _ _ D) as [_ Hk].
    destruct r; cbn; [rewrite IH|]; exact Hk.
  - reflexivity.
Qed.

(** X6.  Whatever the stream, the state the filter starts from and the
    output handler, no [Key] event with the bytes of the filter key is ever
    forwarded. *)
Theorem never_forwards_filter_key (events : list Event.t) (h : FilterKeyHandler.t)
        (o : OutputHandler) :
  Forall (fun e => Event.is_Key_of (keyString_ h) e = false)
         (forwarded (Parse OutputHandler output events h o)).
Proof.
  revert h o. induction events as [|e events IH]; intros h o.
  - constructor.
  - rewrite Parse_cons. destruct (dispatch h e) as [[|] h'|e' hc k|] eqn:D;
      try constructor.
    + rewrite <- (Return_key _ _ _ _ D). apply IH.
    + destruct (output o e') as [r o'].
      rewrite (Forward_answer _ _ _ _ _ r D).
      destruct (Forward_key _ _ _ _ _ D) as [He Hk].
      destruct r; cbn; constructor; auto.
      rewrite <- Hk. apply IH.
Qed.

End KeyString.

Section Balanced.

Import FilterKeyHandler Reader Sax Simulation.

Lemma next_root_done (p p' : position) (e : Event.t) :
  next p e = Some p' -> root_done p' = true -> open p' = [].
Proof.
  assert (forall cs, root_done (value_completed cs) = true ->
                     open (value_completed cs) = []) as Hvc
      by (intros [|[] cs]; cbn; congruence).
  destruct p as [cs rd]. destruct e; cbn [next open];
    try (destruct (value_allowed _); [|discriminate]; cbn [andb]);
    try (destruct (depth_available _); [|discriminate]);
    try (destruct cs as [|[[|] n|n] outer]; try discriminate);
    try (destruct (_ =? _); [|discriminate]);
    intros [= <-]; auto; discriminate.
Qed.

Lemma read_root_done (events : list Event.t) (p p' : position) :
  (root_done p = true -> open p = []) ->
  read p events = Some p' -> root_done p' = true -> open p' = [].
Proof.
  revert p. induction events as [|e events IH]; intros p Hp; cbn.
  - now intros [= <-].
  - destruct (next p e) as [p1|] eqn:Hn; [|discriminate].
    apply IH. eauto using next_root_done.
Qed.

Variable OutputHandler : Type.
Variable output : OutputHandler -> Event.t -> bool * OutputHandler.

(** X7.  After a pass over the complete stream of a document that no output
    handler call rejected, the filter is as it was constructed: depth 0 and
    an empty stack, whatever was suppressed. *)
Theorem complete_pass_resets (key : list byte) (events : list Event.t)
        (o : OutputHandler) :
  well_formed events = true ->
  let p := Parse OutputHandler output events (construct key) o in
  outcome p = Completed ->
  filter p = construct key.
Proof.
  unfold well_formed. intros Hwf Hc.
  set (p := Parse OutputHandler output events (construct key) o) in *.
  destruct (read start events) as [pos|] eqn:Hread; [|discriminate].
  pose proof (read_root_done events start pos (fun H => eq_refl) Hread Hwf) as Hopen.
  destruct (Parse_related OutputHandler output events start pos _ o
                          (related_start key) Hread) as [_ Hrel].
  specialize (Hrel Hc). fold p in Hrel.
  pose proof (Parse_key OutputHandler output events (construct key) o) as Hk.
  fold p in Hk. cbn in Hk.
  destruct Hrel as [_ Hd Hs|inner n outer _ Ho _ _].
  - rewrite Hopen in Hs. cbn in Hs.
    destruct (filter p) as [k d s]. cbn in *. subst.
    destruct s; [reflexivity|discriminate].
  - rewrite Hopen in Ho. now destruct inner.
Qed.

(** X8.  After every event of a well-formed stream, as long as no call was
    rejected, the depth is at most the number of containers the stream has
    open, which is below 2^32: the depth counter does not wrap. *)
Theorem depth_at_most_nesting (key : list byte) (events : list Event.t) (n : nat)
        (o : OutputHandler) (pos : position) :
  well_formed events = true ->
  read start (firstn n events) = Some pos ->
  let p := Parse OutputHandler output (firstn n events) (construct key) o in
  outcome p = Completed ->
  filterValueDepth_ (filter p) <= N.of_nat (length (open pos)) /\
  N.of_nat (length (open pos)) < UINT_MODULUS.
Proof.
  intros _ Hpos p Hc.
  destruct (Parse_related OutputHandler output (firstn n events) start pos _ o
                          (related_start key) Hpos) as [_ Hrel].
  specialize (Hrel Hc). fold p in Hrel.
  destruct Hrel as [Hb Hd Hs|inner m outer Hb Ho Hd Hs].
  - split; [lia|exact Hb].
  - split; [|exact Hb]. rewrite Hd, Ho, length_app. cbn [length]. lia.
Qed.

End Balanced.

Lemma complete_pass_resets_witness :
  Reader.filter
    (Reader.Parse unit Reader.accept_all (Json.events Json.nested)
                  (FilterKeyHandler.construct Main.key) tt)
  = FilterKeyHandler.construct Main.key.
Proof.
  exact (complete_pass_resets unit Reader.accept_all Main.key
           (Json.events Json.nested) tt eq_refl eq_refl).
Defined.

Lemma depth_at_most_nesting_witness :
  FilterKeyHandler.filterValueDepth_
    (Reader.filter
       (Reader.Parse unit Reader.accept_all (firstn 13 (Json.events Json.nested))
                     (FilterKeyHandler.construct Main.key) tt))
  <= 5.
Proof.
  exact (proj1 (depth_at_most_nesting unit Reader.accept_all Main.key
                  (Json.events Json.nested) 13 tt
                  {| Sax.open := [Sax.InObject true 0; Sax.InArray 2;
                                  Sax.InObject true 1; Sax.InObject true 0;
                                  Sax.InObject true 0];
                     Sax.root_done := false |}
                  eq_refl eq_refl eq_refl)).
Defined.

(** ** Documents and the grammar of streams *)

Section DocStreams.

Import Sax Doc.

Lemma next_scalar (p : position) (e : Event.t) :
  Event.is_scalar e = true ->
  next p e = if value_allowed p then Some (value_completed (open p)) else None.
Proof. now destruct e. Qed.

(** The events of a document, read from a position where a value may
    start, complete that value; those of its elements and members are
    counted one by one. *)
Lemma read_events_mutual :
  (forall v, valid v = true ->
     forall cs rd rest,
       value_allowed {| open := cs; root_done := rd |} = true ->
       N.of_nat (length cs + height v) < UINT_MODULUS ->
       read {| open := cs; root_done := rd |} (events v ++ rest)
       = read (value_completed cs) rest) /\
  (forall es, valid_elements es = true ->
     forall n outer rest,
       N.of_nat (S (length outer) + height_elements es) < UINT_MODULUS ->
       read {| open := InArray n :: outer; root_done := false |}
            (events_elements es ++ rest)
       = read {| open := InArray (n + count_elements es) :: outer;
                 root_done := false |} rest) /\
  (forall ms, valid_members ms = true ->
     forall n outer rest,
       N.of_nat (S (length outer) + height_members ms) < UINT_MODULUS ->
       read {| open := InObject false n :: outer; root_done := false |}
            (events_members ms ++ rest)
       = read {| open := InObject false (n + count_members ms) :: outer;
                 root_done := false |} rest).
Proof.
  apply mutual_induction.
  - (* Scalar *)
    intros e He cs rd rest Hv _. cbn [events app read valid] in *.
    now rewrite (next_scalar _ _ He), Hv.
  - (* Array *)
    intros es IH Hes cs rd rest Hv Hb. cbn [events valid height] in *.
    cbn [app read next]. rewrite Hv. unfold depth_available. cbn [open andb].
    assert ((N.of_nat (length cs) + 1 <? UINT_MODULUS) = true) as ->
        by (apply N.ltb_lt; lia).
    rewrite <- app_assoc, (IH Hes 0%nat cs) by (cbn [length] in *; lia).
    cbn [app read next open]. now rewrite N.eqb_refl.
  - (* Object *)
    intros ms IH Hms cs rd rest Hv Hb. cbn [events valid height] in *.
    cbn [app read next]. rewrite Hv. unfold depth_available. cbn [open andb].
    assert ((N.of_nat (length cs) + 1 <? UINT_MODULUS) = true) as ->
        by (apply N.ltb_lt; lia).
    rewrite <- app_assoc, (IH Hms 0%nat cs) by (cbn [length] in *; lia).
    cbn [app read next open]. now rewrite N.eqb_refl.
  - (* ENil *)
    intros _ n outer rest _. cbn [events_elements events_members count_elements count_members app].
    now rewrite Nat.add_0_r.
  - (* ECons *)
    intros v IHv rest' IHr Hval n outer rest Hb.
    cbn [valid_elements events_elements height_elements count_elements] in *.
    apply andb_true_iff in Hval as [Hv Hr].
    rewrite <- app_assoc.
    rewrite (IHv Hv (InArray n :: outer) false _ eq_refl) by (cbn [length]; lia).
    cbn [value_completed]. rewrite (IHr Hr) by lia.
    now rewrite Nat.add_succ_r.
  - (* MNil *)
    intros _ n outer rest _. cbn [events_elements events_members count_elements count_members app].
    now rewrite Nat.add_0_r.
  - (* MCons *)
    intros key copy v IHv rest' IHr Hval n outer rest Hb.
    cbn [valid_members events_members height_members count_members] in *.
    apply andb_true_iff in Hval as [Hv Hr].
    cbn [app read next open].
    rewrite <- app_assoc.
    rewrite (IHv Hv (InObject true n :: outer) false _ eq_refl) by (cbn [length]; lia).
    cbn [value_completed]. rewrite (IHr Hr) by lia.
    now rewrite Nat.add_succ_r.
Qed.

(** The events of a document whose leaves are scalars and whose height is
    in the range of a 32-bit counter form a well-formed stream. *)
Lemma events_well_formed (v : Doc.t) :
  valid v = true -> N.of_nat (height v) < UINT_MODULUS ->
  well_formed (events v) = true.
Proof.
  intros Hv Hb. unfold well_formed, start.
  rewrite <- (app_nil_r (events v)).
  rewrite (proj1 read_events_mutual v Hv [] false [] eq_refl)
    by (cbn [length]; lia).
  reflexivity.
Qed.

Lemma remove_mutual (name : list byte) :
  (forall v, (valid v = true -> valid (remove name v) = true) /\
             (height (remove name v) <= height v)%nat) /\
  (forall es, (valid_elements es = true ->
               valid_elements (remove_elements name es) = true) /\
              (height_elements (remove_elements name es) <= height_elements es)%nat) /\
  (forall ms, (valid_members ms = true ->
               valid_members (remove_members name ms) = true) /\
              (height_members (remove_members name ms) <= height_members ms)%nat).
Proof.
  apply mutual_induction; cbn; intros.
  - auto.
  - destruct H. split; auto. lia.
  - destruct H. split; auto. lia.
  - auto.
  - destruct H, H0. split; [|lia].
    rewrite !andb_true_iff. intros []; auto.
  - auto.
  - destruct H, H0. destruct (bytes_eqb key name); cbn.
    + split; [|lia]. rewrite andb_true_iff. intros []; auto.
    + split; [|lia]. rewrite !andb_true_iff. intros []; auto.
Qed.

(** Removing the members of a name a second time changes nothing. *)
Lemma remove_idempotent_mutual (name : list byte) :
  (forall v, remove name (remove name v) = remove name v) /\
  (forall es, remove_elements name (remove_elements name es)
              = remove_elements name es) /\
  (forall ms, remove_members name (remove_members name ms)
              = remove_members name ms).
Proof.
  apply mutual_induction; cbn; intros; try congruence.
  destruct (bytes_eqb key name) eqn:E; [assumption|].
  cbn. rewrite E. congruence.
Qed.

End DocStreams.

(** ** The filter on documents *)

Section DocSuppressed.

Import FilterKeyHandler Reader Doc.

Variable OutputHandler : Type.
Variable output : OutputHandler -> Event.t -> bool * OutputHandler.

Lemma scalar_suppressed (h : FilterKeyHandler.t) (e : Event.t) :
  Event.is_scalar e = true -> 0 < filterValueDepth_ h ->
  dispatch h e = Return true (snd (EndValue h)).
Proof.
  intros He Hd. apply N.ltb_lt in Hd.
  destruct e; try discriminate He; unfold_methods; rewrite Hd;
    now rewrite EndValue_true.
Qed.

Lemma set_filterValueDepth_same (h : FilterKeyHandler.t) :
  set_filterValueDepth_ (filterValueDepth_ h) h = h.
Proof. now destruct h. Qed.

Lemma set_filterValueDepth_twice (d d' : N) (h : FilterKeyHandler.t) :
  set_filterValueDepth_ d (set_filterValueDepth_ d' h) = set_filterValueDepth_ d h.
Proof. reflexivity. Qed.

Lemma EndValue_deeper (h : FilterKeyHandler.t) : 1 < filterValueDepth_ h -> EndValue h = (true, h).
Proof.
  intros Hd. unfold EndValue.
  destruct (N.eqb_spec (filterValueDepth_ h) 1); [lia|reflexivity].
Qed.

(** Inside a suppressed value, the events of a document are consumed
    without a call, and then the end-of-value rule has been applied once. *)
Lemma suppressed_mutual :
  (forall v, valid v = true ->
     forall h rest o,
       0 < filterValueDepth_ h ->
       filterValueDepth_ h + N.of_nat (height v) < UINT_MODULUS ->
       Parse OutputHandler output (events v ++ rest) h o
       = Parse OutputHandler output rest (snd (EndValue h)) o) /\
  (forall es, valid_elements es = true ->
     forall h rest o,
       1 < filterValueDepth_ h ->
       filterValueDepth_ h + N.of_nat (height_elements es) < UINT_MODULUS ->
       Parse OutputHandler output (events_elements es ++ rest) h o
       = Parse OutputHandler output rest h o) /\
  (forall ms, valid_members ms = true ->
     forall h rest o,
       1 < filterValueDepth_ h ->
       filterValueDepth_ h + N.of_nat (height_members ms) < UINT_MODULUS ->
       Parse OutputHandler output (events_members ms ++ rest) h o
       = Parse OutputHandler output rest h o).
Proof.
  apply mutual_induction.
  - (* Scalar *)
    intros e He h rest o Hd _. cbn [events app valid] in *.
    now rewrite Parse_cons, (scalar_suppressed _ _ He Hd).
  - (* Array *)
    intros es IH Hes h rest o Hd Hb. cbn [events valid height app] in *.
    rewrite Parse_cons. cbn [dispatch]. unfold StartArray.
    rewrite (proj2 (N.ltb_lt _ _) Hd), uint_succ_small by lia.
    rewrite <- app_assoc, (IH Hes) by (cbn [filterValueDepth_ set_filterValueDepth_]; lia).
    cbn [app]. rewrite Parse_cons. cbn [dispatch]. unfold EndArray, returns.
    cbn [filterValueDepth_ set_filterValueDepth_].
    assert ((0 <? filterValueDepth_ h + 1) = true) as -> by (apply N.ltb_lt; lia).
    rewrite uint_pred_small, N.add_sub, set_filterValueDepth_twice,
      set_filterValueDepth_same, EndValue_true by lia.
    reflexivity.
  - (* Object *)
    intros ms IH Hms h rest o Hd Hb. cbn [events valid height app] in *.
    rewrite Parse_cons. cbn [dispatch]. unfold StartObject.
    rewrite (proj2 (N.ltb_lt _ _) Hd), uint_succ_small by lia.
    rewrite <- app_assoc, (IH Hms) by (cbn [filterValueDepth_ set_filterValueDepth_]; lia).
    cbn [app]. rewrite Parse_cons. cbn [dispatch]. unfold EndObject, returns.
    cbn [filterValueDepth_ set_filterValueDepth_].
    assert ((0 <? filterValueDepth_ h + 1) = true) as -> by (apply N.ltb_lt; lia).
    rewrite uint_pred_small, N.add_sub, set_filterValueDepth_twice,
      set_filterValueDepth_same, EndValue_true by lia.
    reflexivity.
  - (* ENil *)
    reflexivity.
  - (* ECons *)
    intros v IHv rest' IHr Hval h rest o Hd Hb.
    cbn [valid_elements events_elements height_elements] in *.
    apply andb_true_iff in Hval as [Hv Hr].
    rewrite <- app_assoc, (IHv Hv), (EndValue_deeper _ Hd) by lia.
    cbn [snd]. apply (IHr Hr); lia.
  - (* MNil *)
    reflexivity.
  - (* MCons *)
    intros key copy v IHv rest' IHr Hval h rest o Hd Hb.
    cbn [valid_members events_members height_members app] in *.
    apply andb_true_iff in Hval as [Hv Hr].
    rewrite Parse_cons. cbn [dispatch]. unfold Key.
    assert ((0 <? filterValueDepth_ h) = true) as -> by (apply N.ltb_lt; lia).
    rewrite <- app_assoc, (IHv Hv), (EndValue_deeper _ Hd) by lia.
    cbn [snd]. apply (IHr Hr); lia.
Qed.

End DocSuppressed.

Section DocForwarded.

Import FilterKeyHandler Reader Doc.

Variable OutputHandler : Type.
Variable output : OutputHandler -> Event.t -> bool * OutputHandler.
Hypothesis accepts : forall o e, fst (output o e) = true.
Variable name : list byte.

Lemma continues_trans (p p' p'' : pass OutputHandler) (l1 l2 : list Event.t) :
  Stream.continues p l1 p' -> Stream.continues p' l2 p'' ->
  Stream.continues p (l1 ++ l2) p''.
Proof.
  intros (Ho & Hf & Hl) (Ho' & Hf' & Hl'). repeat split; try congruence.
  now rewrite Hl, Hl', app_assoc.
Qed.

Lemma forward_step (h : FilterKeyHandler.t) (e e' : Event.t)
      (hc : FilterKeyHandler.t) (k : bool -> bool * FilterKeyHandler.t)
      (rest : list Event.t) (o : OutputHandler) :
  dispatch h e = Forward e' hc k ->
  exists o', Stream.continues (Parse OutputHandler output (e :: rest) h o) [e']
                              (Parse OutputHandler output rest hc o').
Proof.
  intros D. rewrite Parse_cons, D. specialize (accepts o e').
  destruct (output o e') as [r o']. cbn in accepts. subst r.
  rewrite (Forward_answer _ _ _ _ _ true D). exists o'. now repeat split.
Qed.

Lemma scalar_forwarded (h : FilterKeyHandler.t) (e : Event.t) :
  Event.is_scalar e = true -> filterValueDepth_ h = 0 ->
  exists k, dispatch h e = Forward e h k.
Proof.
  intros He Hd. destruct e; try discriminate He; unfold_methods; rewrite Hd;
    eexists; reflexivity.
Qed.

Lemma set_filteredKeyCount_same (h : FilterKeyHandler.t) :
  set_filteredKeyCount_ (filteredKeyCount_ h) h = h.
Proof. now destruct h. Qed.

Lemma iter_uint_succ (n : nat) : Nat.iter n uint_succ 0 = SizeType_of_nat n.
Proof.
  induction n as [|n IH]; [reflexivity|].
  now rewrite Nat.iter_succ, IH, SizeType_of_nat_S.
Qed.

Lemma count_remove_elements (es : elements) :
  count_elements (remove_elements name es) = count_elements es.
Proof. induction es; cbn; congruence. Qed.

(** While nothing is suppressed, the events of a document are forwarded
    without the members named by the filter key, and the stack is left with
    the top count raised by the number of members forwarded. *)
Lemma forwarded_mutual :
  (forall v, valid v = true ->
     forall h rest o,
       filterValueDepth_ h = 0 -> keyString_ h = name ->
       N.of_nat (height v) < UINT_MODULUS ->
       exists o',
         Stream.continues (Parse OutputHandler output (events v ++ rest) h o)
                          (events (remove name v))
                          (Parse OutputHandler output rest h o')) /\
  (forall es, valid_elements es = true ->
     forall h rest o,
       filterValueDepth_ h = 0 -> keyString_ h = name ->
       N.of_nat (S (height_elements es)) < UINT_MODULUS ->
       exists o',
         Stream.continues (Parse OutputHandler output (events_elements es ++ rest) h o)
                          (events_elements (remove_elements name es))
                          (Parse OutputHandler output rest h o')) /\
  (forall ms, valid_members ms = true ->
     forall h c s rest o,
       filterValueDepth_ h = 0 -> keyString_ h = name ->
       filteredKeyCount_ h = c :: s ->
       N.of_nat (S (height_members ms)) < UINT_MODULUS ->
       exists o',
         Stream.continues
           (Parse OutputHandler output (events_members ms ++ rest) h o)
           (events_members (remove_members name ms))
           (Parse OutputHandler output rest
                  (set_filteredKeyCount_
                     (Nat.iter (count_members (remove_members name ms)) uint_succ c :: s)
                     h) o')).
Proof.
  apply mutual_induction.
  - (* Scalar *)
    intros e He h rest o Hd _ _. cbn [events app valid remove] in *.
    destruct (scalar_forwarded _ _ He Hd) as [k D].
    exact (forward_step _ _ _ _ _ rest o D).
  - (* Array *)
    intros es IH Hes h rest o Hd Hk Hb. cbn [events valid height app remove] in *.
    assert (dispatch h Event.StartArray = Forward Event.StartArray h (fun r => (r, h)))
      as D1 by (cbn; unfold StartArray; now rewrite Hd).
    destruct (forward_step _ _ _ _ _
                (events_elements es
                 ++ [Event.EndArray (SizeType_of_nat (count_elements es))] ++ rest)
                o D1) as [o1 H1].
    rewrite <- app_assoc.
    destruct (IH Hes h ([Event.EndArray (SizeType_of_nat (count_elements es))] ++ rest)
                 o1 Hd Hk Hb) as [o2 H2].
    assert (exists k, dispatch h (Event.EndArray (SizeType_of_nat (count_elements es)))
                      = Forward (Event.EndArray (SizeType_of_nat (count_elements es))) h k)
      as [k D3] by (cbn; unfold EndArray; rewrite Hd; eexists; reflexivity).
    destruct (forward_step _ _ _ _ _ rest o2 D3) as [o3 H3].
    exists o3. rewrite count_remove_elements.
    exact (continues_trans _ _ _ [_] _ H1 (continues_trans _ _ _ _ _ H2 H3)).
  - (* Object *)
    intros ms IH Hms h rest o Hd Hk Hb. cbn [events valid height app remove] in *.
    set (h1 := set_filteredKeyCount_ (0 :: filteredKeyCount_ h) h).
    assert (dispatch h Event.StartObject = Forward Event.StartObject h1 (fun r => (r, h1)))
      as D1 by (cbn; unfold StartObject; now rewrite Hd).
    destruct (forward_step _ _ _ _ _
                (events_members ms
                 ++ [Event.EndObject (SizeType_of_nat (count_members ms))] ++ rest)
                o D1) as [o1 H1].
    rewrite <- app_assoc.
    destruct (IH Hms h1 0 (filteredKeyCount_ h)
                 ([Event.EndObject (SizeType_of_nat (count_members ms))] ++ rest)
                 o1 Hd Hk eq_refl Hb) as [o2 H2].
    rewrite iter_uint_succ in H2.
    set (n := SizeType_of_nat (count_members (remove_members name ms))) in *.
    assert (exists k,
               dispatch (set_filteredKeyCount_ (n :: filteredKeyCount_ h) h1)
                        (Event.EndObject (SizeType_of_nat (count_members ms)))
               = Forward (Event.EndObject n) h k)
      as [k D3].
    { cbn. unfold EndObject. cbn. rewrite Hd. cbn. unfold forward_and_EndValue.
      change (set_filteredKeyCount_ (filteredKeyCount_ h)
                (set_filteredKeyCount_ (n :: filteredKeyCount_ h) h1))
        with (set_filteredKeyCount_ (filteredKeyCount_ h) h).
      rewrite set_filteredKeyCount_same. eexists; reflexivity. }
    destruct (forward_step _ _ _ _ _ rest o2 D3) as [o3 H3].
    exists o3.
    exact (continues_trans _ _ _ [_] _ H1 (continues_trans _ _ _ _ _ H2 H3)).
  - (* ENil *)
    intros _ h rest o _ _ _. exists o. now repeat split.
  - (* ECons *)
    intros v IHv rest' IHr Hval h rest o Hd Hk Hb.
    cbn [valid_elements events_elements height_elements remove_elements] in *.
    apply andb_true_iff in Hval as [Hv Hr].
    rewrite <- app_assoc.
    destruct (IHv Hv h (events_elements rest' ++ rest) o Hd Hk) as [o1 H1]; [lia|].
    destruct (IHr Hr h rest o1 Hd Hk) as [o2 H2]; [lia|].
    exists o2. exact (continues_trans _ _ _ _ _ H1 H2).
  - (* MNil *)
    intros _ h c s rest o _ _ Hs _. exists o. cbn.
    rewrite <- Hs, set_filteredKeyCount_same. now repeat split.
  - (* MCons *)
    intros key copy v IHv rest' IHr Hval h c s rest o Hd Hk Hs Hb.
    cbn [valid_members events_members height_members remove_members app] in *.
    apply andb_true_iff in Hval as [Hv Hr].
    rewrite <- app_assoc.
    destruct (bytes_eqb key name) eqn:E.
    + (* the filter key: the member is suppressed *)
      rewrite Parse_cons. cbn [dispatch]. unfold Key.
      rewrite Hd, is_filtered_key_eqb, Hk, E. cbn [N.ltb N.compare].
      rewrite (proj1 (suppressed_mutual OutputHandler output) v Hv)
        by (cbn [filterValueDepth_ set_filterValueDepth_]; lia).
      unfold EndValue. cbn [filterValueDepth_ set_filterValueDepth_ N.eqb Pos.eqb snd].
      rewrite set_filterValueDepth_twice, <- Hd, set_filterValueDepth_same.
      apply (IHr Hr); auto. lia.
    + (* another key: the member is forwarded *)
      set (h1 := set_filteredKeyCount_ (uint_succ c :: s) h).
      assert (dispatch h (Event.Key key copy)
              = Forward (Event.Key key copy) h1 (fun r => (r, h1))) as D1.
      { cbn. unfold Key. now rewrite Hd, is_filtered_key_eqb, Hk, E, Hs. }
      destruct (forward_step _ _ _ _ _ (events v ++ events_members rest' ++ rest)
                             o D1) as [o1 H1].
      destruct (IHv Hv h1 (events_members rest' ++ rest) o1 Hd Hk) as [o2 H2]; [lia|].
      destruct (IHr Hr h1 (uint_succ c) s rest o2 Hd Hk eq_refl) as [o3 H3]; [lia|].
      exists o3. cbn [events_members count_members app].
      rewrite Nat.iter_swap, <- Nat.iter_succ in H3.
      exact (continues_trans _ _ _ [_] _ H1 (continues_trans _ _ _ _ _ H2 H3)).
Qed.

End DocForwarded.

(** X9.  Over the events of a document, with an output handler that
    accepts every event, the filter forwards exactly the events of the
    document without the members named by the filter key, at every depth and
    with the member counts of what remains; the pass completes and leaves
    the filter as constructed. *)
Theorem filter_removes_members
        (OutputHandler : Type)
        (output : OutputHandler -> Event.t -> bool * OutputHandler)
        (name : list byte) (v : Doc.t) (o : OutputHandler) :
  (forall o' e, fst (output o' e) = true) ->
  Doc.valid v = true ->
  N.of_nat (Doc.height v) < UINT_MODULUS ->
  let p := Reader.Parse OutputHandler output (Doc.events v)
                        (FilterKeyHandler.construct name) o in
  Reader.outcome p = Reader.Completed /\
  Reader.forwarded p = Doc.events (Doc.remove name v) /\
  Reader.filter p = FilterKeyHandler.construct name.
Proof.
  intros Hacc Hv Hb.
  destruct (proj1 (forwarded_mutual OutputHandler output Hacc name) v Hv
                  (FilterKeyHandler.construct name) [] o eq_refl eq_refl Hb)
    as (o' & Ho & Hf & Hl).
  rewrite app_nil_r in *. cbn in Ho, Hf, Hl. rewrite app_nil_r in Hl. auto.
Qed.

Lemma filter_removes_members_witness :
  let v := Doc.Object
             (Doc.MCons (list_byte_of_string "coordinates") true
                (Doc.Array (Doc.ECons (Doc.Scalar Event.Null) Doc.ENil))
                (Doc.MCons (list_byte_of_string "z") true
                   (Doc.Scalar (Event.Uint 2)) Doc.MNil)) in
  Reader.forwarded
    (Reader.Parse unit Reader.accept_all (Doc.events v)
                  (FilterKeyHandler.construct (list_byte_of_string "coordinates")) tt)
  = [Event.StartObject; Event.Key (list_byte_of_string "z") true;
     Event.Uint 2; Event.EndObject 1].
Proof.
  intros v.
  exact (proj1 (proj2 (filter_removes_members
                         unit Reader.accept_all
                         (list_byte_of_string "coordinates") v tt
                         (fun _ _ => eq_refl) eq_refl eq_refl))).
Defined.

(** X10.  What the filter forwards for a document is again a well-formed
    stream: another handler, or another filter, can read it as the events
    of one document. *)
Theorem forwarded_is_well_formed
        (OutputHandler : Type)
        (output : OutputHandler -> Event.t -> bool * OutputHandler)
        (name : list byte) (v : Doc.t) (o : OutputHandler) :
  (forall o' e, fst (output o' e) = true) ->
  Doc.valid v = true ->
  N.of_nat (Doc.height v) < UINT_MODULUS ->
  Sax.well_formed
    (Reader.forwarded
       (Reader.Parse OutputHandler output (Doc.events v)
                     (FilterKeyHandler.construct name) o)) = true.
Proof.
  intros Hacc Hv Hb.
  destruct (proj1 (forwarded_mutual OutputHandler output Hacc name) v Hv
                  (FilterKeyHandler.construct name) [] o eq_refl eq_refl Hb)
    as (o' & _ & _ & Hl).
  rewrite app_nil_r in Hl. cbn in Hl. rewrite app_nil_r in Hl. rewrite Hl.
  destruct (proj1 (remove_mutual name) v) as [Hv' Hh].
  apply events_well_formed; [auto|lia].
Qed.

Lemma forwarded_is_well_formed_witness :
  Sax.well_formed
    (Reader.forwarded
       (Reader.Parse unit Reader.accept_all
          (Doc.events
             (Doc.Object
                (Doc.MCons (list_byte_of_string "coordinates") true
                   (Doc.Scalar (Event.Uint 42)) Doc.MNil)))
          (FilterKeyHandler.construct (list_byte_of_string "coordinates")) tt))
  = true.
Proof.
  exact (forwarded_is_well_formed unit Reader.accept_all
           (list_byte_of_string "coordinates")
           (Doc.Object
              (Doc.MCons (list_byte_of_string "coordinates") true
                 (Doc.Scalar (Event.Uint 42)) Doc.MNil))
           tt (fun _ _ => eq_refl) eq_refl eq_refl).
Defined.

(** X11.  Filtering is idempotent: a second pass with the same key over what
    a first pass forwarded forwards it unchanged. *)
Theorem filtering_twice
        (OutputHandler : Type)
        (output : OutputHandler -> Event.t -> bool * OutputHandler)
        (name : list byte) (v : Doc.t) (o o2 : OutputHandler) :
  (forall o' e, fst (output o' e) = true) ->
  Doc.valid v = true ->
  N.of_nat (Doc.height v) < UINT_MODULUS ->
  let once := Reader.forwarded
                (Reader.Parse OutputHandler output (Doc.events v)
                              (FilterKeyHandler.construct name) o) in
  Reader.forwarded
    (Reader.Parse OutputHandler output once (FilterKeyHandler.construct name) o2)
  = once.
Proof.
  intros Hacc Hv Hb. cbv zeta.
  destruct (proj1 (remove_mutual name) v) as [Hv' Hh].
  destruct (proj1 (forwarded_mutual OutputHandler output Hacc name) v Hv
                  (FilterKeyHandler.construct name) [] o eq_refl eq_refl Hb)
    as (o' & _ & _ & Hl).
  rewrite app_nil_r in Hl. cbn in Hl. rewrite app_nil_r in Hl. rewrite Hl.
  destruct (proj1 (forwarded_mutual OutputHandler output Hacc name)
                  (Doc.remove name v) (Hv' Hv)
                  (FilterKeyHandler.construct name) [] o2 eq_refl eq_refl)
    as (o'' & _ & _ & Hl'); [lia|].
  rewrite app_nil_r in Hl'. cbn in Hl'. rewrite app_nil_r in Hl'.
  now rewrite Hl', (proj1 (remove_idempotent_mutual name)).
Qed.

Lemma filtering_twice_witness :
  let v := Doc.Array
             (Doc.ECons
                (Doc.Object
                   (Doc.MCons (list_byte_of_string "coordinates") true
                      (Doc.Scalar (Event.Uint 1))
                      (Doc.MCons (list_byte_of_string "z") true
                         (Doc.Scalar (Event.Uint 2)) Doc.MNil)))
                Doc.ENil) in
  let key := FilterKeyHandler.construct (list_byte_of_string "coordinates") in
  let once := Reader.forwarded
                (Reader.Parse unit Reader.accept_all (Doc.events v) key tt) in
  Reader.forwarded (Reader.Parse unit Reader.accept_all once key tt) = once.
Proof.
  intros v.
  exact (filtering_twice unit Reader.accept_all
           (list_byte_of_string "coordinates") v tt tt
           (fun _ _ => eq_refl) eq_refl eq_refl).
Defined.

(** ** The counters of the report *)

Section Maps.

Import Main Counts.

Lemma bytes_compare_antisym (a b : list byte) :
  bytes_compare b a = CompOpp (bytes_compare a b).
Proof.
  revert b. induction a as [|x a IH]; intros [|y b]; cbn; try reflexivity.
  rewrite (N.compare_antisym (Byte.to_N x) (Byte.to_N y)).
  destruct (Byte.to_N x ?= Byte.to_N y); cbn; auto.
Qed.

(** [key] is below the first key of [m], if any. *)
Lemma increasing_cons (k : list byte) (v : Z) (m : map_string_int) :
  increasing ((k, v) :: m) = true <->
  match m with [] => True | (k', _) :: _ => bytes_compare k k' = Lt end /\
  increasing m = true.
Proof.
  cbn [increasing]. destruct m as [|[k' v'] m]; [tauto|].
  destruct (bytes_compare k k'); split; try tauto; try discriminate;
    intros [H _]; discriminate.
Qed.

Lemma increment_head (k key : list byte) (m : map_string_int) :
  match m with [] => True | (k', _) :: _ => bytes_compare k k' = Lt end ->
  bytes_compare k key = Lt ->
  match increment key m with
  | [] => True
  | (k', _) :: _ => bytes_compare k k' = Lt
  end.
Proof.
  destruct m as [|[k' v'] m]; cbn; auto.
  destruct (bytes_compare key k'); auto.
Qed.

Lemma increment_increasing (key : list byte) (m : map_string_int) :
  increasing m = true -> increasing (increment key m) = true.
Proof.
  induction m as [|[k v] m IH]; [reflexivity|].
  intros Hinc. pose proof Hinc as Hinc'.
  apply increasing_cons in Hinc' as [Hk Hm]. cbn [increment].
  destruct (bytes_compare key k) eqn:C.
  - apply increasing_cons. auto.
  - apply increasing_cons. auto.
  - apply increasing_cons. split; [|auto].
    apply increment_head; auto.
    rewrite bytes_compare_antisym, C. reflexivity.
Qed.

Lemma increment_total (key : list byte) (m : map_string_int) :
  total (increment key m) = (total m + 1)%Z.
Proof.
  induction m as [|[k v] m IH]; cbn [increment total]; [reflexivity|].
  destruct (bytes_compare key k); cbn [total]; rewrite ?IH; lia.
Qed.

(** Counts of at least 1 stay so, and none exceeds their sum. *)
Lemma increment_positive (key : list byte) (m : map_string_int) :
  forallb (fun entry => (1 <=? snd entry)%Z) m = true ->
  forallb (fun entry => (1 <=? snd entry)%Z) (increment key m) = true.
Proof.
  induction m as [|[k v] m IH]; [reflexivity|]. cbn [forallb increment snd].
  intros H. apply andb_true_iff in H as [Hv Hm].
  destruct (bytes_compare key k); cbn [forallb snd];
    rewrite ?Hv, ?Hm, ?IH; auto.
  apply Z.leb_le in Hv. cbn [andb].
  now rewrite (proj2 (Z.leb_le 1 (v + 1)) ltac:(lia)).
Qed.

Lemma in_int_range_of_total (m : map_string_int) :
  forallb (fun entry => (1 <=? snd entry)%Z) m = true ->
  (total m <= INT_MAX)%Z ->
  in_int_range m = true.
Proof.
  unfold in_int_range.
  assert (forall m', forallb (fun entry => (1 <=? snd entry)%Z) m' = true ->
                     (0 <= total m')%Z) as Hnonneg.
  { induction m' as [|[k v] m' IH]; cbn; [lia|].
    intros H. apply andb_true_iff in H as [Hv Hm']. apply Z.leb_le in Hv.
    specialize (IH Hm'). lia. }
  induction m as [|[k v] m IH]; [reflexivity|]. cbn [forallb snd total].
  intros H Ht. apply andb_true_iff in H as [Hv Hm].
  pose proof (Hnonneg m Hm). rewrite Hv. cbn [andb].
  rewrite (proj2 (Z.leb_le v INT_MAX)) by (apply Z.leb_le in Hv; lia).
  apply IH; auto. apply Z.leb_le in Hv. lia.
Qed.


End Maps.

(** ** main, continued *)

Section MainMore.

Import FilterKeyReader Main Counts.

Lemma count_properties_total (props : list (list byte * Value)) (m : map_string_int) :
  total (count_properties props m) = (total m + Z.of_nat (length props))%Z.
Proof.
  revert m. induction props as [|[name v] props IH]; intros m;
    cbn [count_properties length]; [lia|].
  rewrite IH, increment_total. lia.
Qed.

Lemma count_properties_increasing (props : list (list byte * Value))
      (m : map_string_int) :
  increasing m = true -> increasing (count_properties props m) = true.
Proof.
  revert m. induction props as [|[name v] props IH]; intros m Hm;
    cbn [count_properties]; auto using increment_increasing.
Qed.

Lemma count_properties_positive (props : list (list byte * Value))
      (m : map_string_int) :
  forallb (fun entry => (1 <=? snd entry)%Z) m = true ->
  forallb (fun entry => (1 <=? snd entry)%Z) (count_properties props m) = true.
Proof.
  revert m. induction props as [|[name v] props IH]; intros m Hm;
    cbn [count_properties]; auto using increment_positive.
Qed.

(** What the body of the loop does to the counters for a feature that
    passes it. *)
Lemma visit_counts (feature : Value) (s : stats) :
  feature_ok feature = true ->
  exists s',
    visit feature s = Continue s' /\
    total (geometry_counts s') = (total (geometry_counts s) + 1)%Z /\
    total (property_counts s')
    = (total (property_counts s) + Z.of_nat (properties_of feature))%Z /\
    (increasing (geometry_counts s) = true ->
     increasing (geometry_counts s') = true) /\
    (increasing (property_counts s) = true ->
     increasing (property_counts s') = true) /\
    (forallb (fun entry => (1 <=? snd entry)%Z) (geometry_counts s) = true ->
     forallb (fun entry => (1 <=? snd entry)%Z) (geometry_counts s') = true) /\
    (forallb (fun entry => (1 <=? snd entry)%Z) (property_counts s) = true ->
     forallb (fun entry => (1 <=? snd entry)%Z) (property_counts s') = true).
Proof.
  unfold feature_ok, visit, properties_of.
  destruct feature as [| | | |?|members]; try discriminate.
  destruct (find_member geometry members) as [[| | | |?|gmembers]|];
    try discriminate.
  destruct (find_member type gmembers) as [[| | |ty|?|?]|]; try discriminate.
  destruct (find_member properties members) as [[| | | |?|props]|];
    try discriminate; intros _; eexists; (split; [reflexivity|]);
    cbn [geometry_counts property_counts];
    rewrite ?increment_total, ?count_properties_total;
    repeat split;
    auto using increment_increasing, count_properties_increasing,
      increment_positive, count_properties_positive; lia.
Qed.


Variable w : world.

Lemma run_collect_counts (fs : list Value) (n : N) (s : stats) :
  forallb feature_ok fs = true ->
  exists s',
    run w (collect fs n s) = run w (report n s') /\
    total (geometry_counts s')
    = (total (geometry_counts s) + Z.of_nat (length fs))%Z /\
    total (property_counts s')
    = (total (property_counts s) + Z.of_nat (properties_in fs))%Z /\
    (increasing (geometry_counts s) = true ->
     increasing (geometry_counts s') = true) /\
    (increasing (property_counts s) = true ->
     increasing (property_counts s') = true) /\
    (forallb (fun entry => (1 <=? snd entry)%Z) (geometry_counts s) = true ->
     forallb (fun entry => (1 <=? snd entry)%Z) (geometry_counts s') = true) /\
    (forallb (fun entry => (1 <=? snd entry)%Z) (property_counts s) = true ->
     forallb (fun entry => (1 <=? snd entry)%Z) (property_counts s') = true).
Proof.
  revert s. induction fs as [|feature fs IH]; intros s; cbn [forallb collect].
  - intros _. exists s. cbn [length properties_in]. repeat split; auto; lia.
  - intros H. apply andb_true_iff in H as [Hf Hfs].
    destruct (visit_counts feature s Hf)
      as (s1 & -> & Hg & Hp & Hig & Hip & Hpg & Hpp).
    destruct (IH s1 Hfs) as (s' & Hrun & Hg' & Hp' & Hig' & Hip' & Hpg' & Hpp').
    exists s'. cbn [length properties_in]. repeat split; auto; lia.
Qed.

(** The loop reads [id_counts] only to increment it. *)
Lemma visit_forgets_id_counts (feature : Value) (s s' : stats) :
  geometry_counts s = geometry_counts s' ->
  property_counts s = property_counts s' ->
  match visit feature s, visit feature s' with
  | Continue a, Continue b =>
      geometry_counts a = geometry_counts b /\
      property_counts a = property_counts b
  | Failed x, Failed y => x = y
  | LibraryAssertion, LibraryAssertion => True
  | _, _ => False
  end.
Proof.
  intros Hg Hp. unfold visit.
  destruct feature as [| | | |?|members]; auto.
  destruct (find_member geometry members) as [[| | | |?|gmembers]|]; auto.
  destruct (find_member type gmembers) as [[| | |ty|?|?]|]; auto.
  destruct (find_member properties members) as [[| | | |?|props]|]; auto;
    cbn; rewrite Hg, ?Hp; auto.
Qed.

Lemma collect_forgets_id_counts (fs : list Value) (n : N) (s s' : stats) :
  geometry_counts s = geometry_counts s' ->
  property_counts s = property_counts s' ->
  collect fs n s = collect fs n s'.
Proof.
  revert s s'. induction fs as [|feature fs IH]; intros s s' Hg Hp; cbn.
  - unfold report. now rewrite Hg, Hp.
  - pose proof (visit_forgets_id_counts feature s s' Hg Hp) as H.
    destruct (visit feature s), (visit feature s'); try contradiction.
    + destruct H. auto.
    + now subst.
    + reflexivity.
Qed.

End MainMore.

(** X14.  The output and the exit status of [main] do not depend on the
    indeterminate value that [id_counts] starts from. *)
Theorem main_ignores_id_counts (w : Main.world) (a b : Z) (argv : list (list byte)) :
  Main.run w (Main.main a argv) = Main.run w (Main.main b argv).
Proof.
  unfold Main.main. destruct (negb _); [reflexivity|]. cbn [Main.run].
  destruct (Main.fopen w _) as [stream|]; [|reflexivity]. cbn [Main.run].
  destruct (Main.populate w _ _) as [pr document].
  destruct (negb _); [reflexivity|]. unfold Main.summarise.
  destruct document as [| | | |?|members]; try reflexivity.
  destruct (Main.find_member Main.features members) as [[| | | |fs|?]|];
    try reflexivity.
  cbn [Main.run].
  now rewrite (collect_forgets_id_counts fs (SizeType_of_nat (length fs))
                 {| Main.geometry_counts := []; Main.property_counts := [];
                    Main.id_counts := a |}
                 {| Main.geometry_counts := []; Main.property_counts := [];
                    Main.id_counts := b |} eq_refl eq_refl).
Qed.

(** X15.  A summary is printed whole or not at all.  When [main] ends
    with the status 0 it has printed the whole summary and has written
    nothing to the standard error; when it ends in any other way, by a
    [return 1], by a failed ASSERT or by a failed assertion of the library,
    nothing has been printed to the standard output; and when it ends with
    the status 1 it has written exactly one message to the standard error.
    What a failed assertion of the library writes is not part of this. *)
Theorem main_all_or_nothing (w : Main.world) (id_counts0 : Z) (argv : list (list byte)) :
  let r := Main.run w (Main.main id_counts0 argv) in
  (Main.exit_status r = Some 0%Z ->
   Main.stderr r = [] /\ exists n s, Main.stdout r = Main.summary n s) /\
  (Main.exit_status r <> Some 0%Z -> Main.stdout r = []) /\
  (Main.exit_status r = Some 1%Z -> exists m, Main.stderr r = [m]).
Proof.
  cbv zeta.
  assert ((Main.exit_status (Main.run w (Main.main id_counts0 argv)) = Some 0%Z /\
           Main.stderr (Main.run w (Main.main id_counts0 argv)) = [] /\
           exists n s, Main.stdout (Main.run w (Main.main id_counts0 argv))
                       = Main.summary n s) \/
          (Main.exit_status (Main.run w (Main.main id_counts0 argv)) = Some 1%Z /\
           (exists m, Main.stderr (Main.run w (Main.main id_counts0 argv)) = [m]) /\
           Main.stdout (Main.run w (Main.main id_counts0 argv)) = []) \/
          (Main.exit_status (Main.run w (Main.main id_counts0 argv)) = None /\
           Main.stdout (Main.run w (Main.main id_counts0 argv)) = [])) as Hcases.
  { unfold Main.main.
    destruct (negb _); [right; left; cbn; eauto|]. cbn [Main.run].
    destruct (Main.fopen w _) as [stream|]; [|right; left; cbn; eauto].
    cbn [Main.run]. destruct (Main.populate w _ _) as [pr document].
    destruct (negb _); [right; left; cbn; eauto|]. unfold Main.summarise.
    destruct document as [| | | |?|members]; try (right; right; cbn; now auto).
    destruct (Main.find_member Main.features members) as [[| | | |fs|?]|];
      try (right; right; cbn; now auto).
    pose proof (run_collect w fs (SizeType_of_nat (length fs))
                  {| Main.geometry_counts := []; Main.property_counts := [];
                     Main.id_counts := id_counts0 |}) as Hc.
    destruct (forallb Main.feature_ok fs).
    - destruct Hc as [s' ->]. rewrite run_report. left. cbn. eauto.
    - destruct Hc as [_ [->|[a ->]]]; [right; right|right; left]; cbn; eauto. }
  destruct Hcases as [(He & Herr & Hout)|[(He & Herr & Hout)|(He & Hout)]];
    rewrite He; repeat split; auto; try discriminate; try congruence.
Qed.

Lemma main_all_or_nothing_witness :
  exists n s,
    Main.stdout
      (Main.run (Main.world_with [] Main.one_point)
                (Main.main 0 [list_byte_of_string "gq"; list_byte_of_string "in.json"]))
    = Main.summary n s.
Proof.
  exact (proj2 (proj1 (main_all_or_nothing
                         (Main.world_with [] Main.one_point) 0
                         [list_byte_of_string "gq"; list_byte_of_string "in.json"])
                      eq_refl)).
Defined.

(** X16.  When the parse succeeds on a document whose features all pass the
    assertions, and the features and the members of their "properties"
    objects are at most [INT_MAX] in number, so that no [int] counter
    overflows, the summary printed is that of counters that add up: the
    geometry counts to the number of features, the property counts to the
    number of members of the features' "properties" objects.  Every count
    printed is between 1 and [INT_MAX], the number of features is printed as
    it is, and the names of both lists are in strictly increasing order. *)
Theorem summary_adds_up (w : Main.world) (id_counts0 : Z)
        (prog path : list byte) (stream : Main.FILE)
        (pr : FilterKeyReader.ParseResult) (document : Main.Value)
        (fs : list Main.Value) :
  Main.fopen w path = Some stream ->
  Main.populate w (FilterKeyReader.construct stream Main.key)
                (FilterKeyReader.filter (FilterKeyReader.construct stream Main.key))
  = (pr, document) ->
  FilterKeyReader.succeeded pr = true ->
  Main.features_of document = Some fs ->
  forallb Main.feature_ok fs = true ->
  (Z.of_nat (length fs) <= Counts.INT_MAX)%Z ->
  (Z.of_nat (Counts.properties_in fs) <= Counts.INT_MAX)%Z ->
  exists s,
    Main.run w (Main.main id_counts0 [prog; path])
    = {| Main.exit_status := Some 0%Z; Main.stderr := [];
         Main.stdout := Main.summary (N.of_nat (length fs)) s |} /\
    Counts.total (Main.geometry_counts s) = Z.of_nat (length fs) /\
    Counts.total (Main.property_counts s) = Z.of_nat (Counts.properties_in fs) /\
    Counts.in_int_range (Main.geometry_counts s) = true /\
    Counts.in_int_range (Main.property_counts s) = true /\
    Counts.increasing (Main.geometry_counts s) = true /\
    Counts.increasing (Main.property_counts s) = true.
Proof.
  intros Hopen Hpop Hpr Hfs Hok Hnf Hnp. unfold Main.main.
  cbn [length Nat.eqb negb nth Main.run]. rewrite Hopen. cbn [Main.run].
  rewrite Hpop, Hpr. cbn [negb]. unfold Main.features_of in Hfs.
  unfold Main.summarise.
  destruct document as [| | | |?|members]; try discriminate.
  destruct (Main.find_member Main.features members) as [[| | | |fs'|?]|];
    try discriminate.
  injection Hfs as ->.
  destruct (run_collect_counts w fs (SizeType_of_nat (length fs))
              {| Main.geometry_counts := []; Main.property_counts := [];
                 Main.id_counts := id_counts0 |} Hok)
    as (s & -> & Hg & Hp & Hig & Hip & Hpg & Hpp).
  exists s. rewrite run_report.
  cbn [Main.geometry_counts Main.property_counts Counts.total Counts.increasing
       forallb] in *.
  assert (SizeType_of_nat (length fs) = N.of_nat (length fs)) as ->.
  { unfold SizeType_of_nat. apply N.mod_small.
    unfold Counts.INT_MAX, UINT_MODULUS in *. lia. }
  repeat split; auto; try lia;
    apply in_int_range_of_total; auto; lia.
Qed.

Lemma summary_adds_up_witness :
  exists s,
    Main.run (Main.world_with [] Main.one_point)
             (Main.main 0 [list_byte_of_string "gq"; list_byte_of_string "in.json"])
    = {| Main.exit_status := Some 0%Z; Main.stderr := [];
         Main.stdout := Main.summary 1 s |} /\
    Counts.total (Main.geometry_counts s) = 1%Z /\
    Counts.total (Main.property_counts s) = 1%Z /\
    Counts.in_int_range (Main.geometry_counts s) = true /\
    Counts.in_int_range (Main.property_counts s) = true /\
    Counts.increasing (Main.geometry_counts s) = true /\
    Counts.increasing (Main.property_counts s) = true.
Proof.
  refine (summary_adds_up (Main.world_with [] Main.one_point) 0
            (list_byte_of_string "gq") (list_byte_of_string "in.json") []
            {| FilterKeyReader.Code := FilterKeyReader.kParseErrorNone;
               FilterKeyReader.Offset := 0 |}
            Main.one_point
            [Main.Object
               [(Main.geometry,
                 Main.Object [(Main.type, Main.String (list_byte_of_string "Point"))]);
                (Main.properties,
                 Main.Object [(list_byte_of_string "name", Main.Number 1)])]]
            eq_refl eq_refl eq_refl eq_refl eq_refl _ _);
    discriminate.
Defined.

